(** * Cherished Memories: transition engine, photo placement, gesture
      classifier and application state machine.

    Numbers of the TypeScript and GLSL sources are idealised: exact
    rationals ([Q]) where the code only adds, multiplies, divides and
    compares; reals ([R]) where it takes a square root; integers ([Z]) for
    the millisecond clock. *)

From Stdlib Require Import QArith Qround ZArith List Bool String Lia Psatz.
From Stdlib Require Import Reals Qreals.
From Stdlib Require Import Qabs Qpower Sorted Permutation.
Import ListNotations.

(** ** types.ts *)

Inductive AppState : Type := CHAOS | FORMED | FOCUS.

Definition AppState_eqb (a b : AppState) : bool :=
  match a, b with
  | CHAOS, CHAOS | FORMED, FORMED | FOCUS, FOCUS => true
  | _, _ => false
  end.

(** ** Transition engine (components/Foliage.tsx, OrbitingParticles.tsx,
       FairyLights.tsx, Ribbon in TreeGroup.tsx) *)

Module Transition.
Local Open Scope Q_scope.

(** [THREE.MathUtils.lerp(x, y, t)] of three.js: [(1 - t) * x + t * y]. *)
Definition lerp (x y t : Q) : Q := (1 - t) * x + t * y.

(** The particle families that own a [uProgress] uniform. *)
Inductive Family : Type := Foliage | FairyLights | Ribbon | OrbitingParticles.

(** The factor of [delta] in each family's [useFrame]. *)
Definition rate (f : Family) : Q :=
  match f with
  | Foliage => 0.8
  | FairyLights => 0.8
  | Ribbon => 0.8
  | OrbitingParticles => 0.6
  end.

(** [const targetProgress = (appState === FORMED || appState === FOCUS) ? 1 : 0]. *)
Definition targetProgress (appState : AppState) : Q :=
  match appState with
  | FORMED | FOCUS => 1
  | CHAOS => 0
  end.

(** One [useFrame] callback: when the mesh is mounted, [uProgress] becomes
    [lerp(uProgress, targetProgress, delta * rate)]; otherwise nothing
    happens. *)
Definition useFrame (f : Family) (mounted : bool) (appState : AppState)
    (delta uProgress : Q) : Q :=
  if mounted then lerp uProgress (targetProgress appState) (delta * rate f)
  else uProgress.

(** A run of frames with the application state held fixed. *)
Fixpoint frames (f : Family) (appState : AppState) (deltas : list Q)
    (uProgress : Q) : Q :=
  match deltas with
  | [] => uProgress
  | delta :: rest => frames f appState rest (useFrame f true appState delta uProgress)
  end.

(** A timestep that keeps the interpolation factor [delta * rate] within
    [[0, 1]]. *)
Definition smallStep (f : Family) (delta : Q) : Prop :=
  0 <= delta /\ delta * rate f <= 1.

(** [r] is no further from [target] than [q], on the same side. *)
Definition towards (target q r : Q) : Prop :=
  (q <= r /\ r <= target) \/ (target <= r /\ r <= q).

Definition inUnit (p : Q) : Prop := 0 <= p /\ p <= 1.

(** *** The vertex shader's blend *)

Record vec3 : Type := Vec3 { vx : Q; vy : Q; vz : Q }.

Definition vec3_eq (a b : vec3) : Prop :=
  vx a == vx b /\ vy a == vy b /\ vz a == vz b.

(** [float ease = t < 0.5 ? 4.0*t*t*t : 1.0 - pow(-2.0*t + 2.0, 3.0) / 2.0]. *)
Definition ease (t : Q) : Q :=
  if Qlt_le_dec t 0.5 then 4 * t * t * t
  else 1 - (-2 * t + 2) ^ 3 / 2.

(** GLSL [mix(x, y, a) = x * (1 - a) + y * a], on scalars and on [vec3]. *)
Definition mix1 (x y a : Q) : Q := x * (1 - a) + y * a.

Definition mix (p q : vec3) (a : Q) : vec3 :=
  Vec3 (mix1 (vx p) (vx q) a) (mix1 (vy p) (vy q) a) (mix1 (vz p) (vz q) a).

(** [vec3 pos = mix(aChaosPos, aTargetPos, ease)] with [t = uProgress]. *)
Definition blend (aChaosPos aTargetPos : vec3) (uProgress : Q) : vec3 :=
  mix aChaosPos aTargetPos (ease uProgress).

End Transition.

(** ** Photo placement (utils/math.ts, [generatePhotoPositions]) *)

Module Placement.
Local Open Scope Q_scope.

Record SourcePhoto : Type :=
  { src_id : string; src_url : string; src_aspectRatio : Q }.

(** [array.map((photo, i) => ...)]. *)
Fixpoint mapi_from {A B : Type} (f : A -> nat -> B) (i : nat) (l : list A) : list B :=
  match l with
  | [] => []
  | a :: rest => f a i :: mapi_from f (S i) rest
  end.

Definition mapi {A B : Type} (f : A -> nat -> B) (l : list A) : list B :=
  mapi_from f 0 l.

Definition ofNat (n : nat) : Q := inject_Z (Z.of_nat n).

(** The parameter [t] at which the ribbon curve is sampled for the photo of
    index [i] among [len = sourcePhotos.length]:
    [let t = 0.5;
     if (len > 1) t = 0.15 + (i / (len - 1)) * 0.7;
     else if (len === 1) t = 0.5;] *)
Definition curveParameter (len i : nat) : Q :=
  if (1 <? len)%nat then 0.15 + (ofNat i / ofNat (len - 1)) * 0.7
  else if (len =? 1)%nat then 0.5
  else 0.5.

(** What [generatePhotoPositions] keeps of each photo for the state machine,
    together with its curve parameter.  The point [curve.getPointAt(t)], the
    drop, the rotation and the random chaos position are computed from [t]
    by three.js and are not needed below. *)
Record PhotoData : Type :=
  { id : string; url : string; aspectRatio : Q; ribbonT : Q }.

Definition generatePhotoPositions (sourcePhotos : list SourcePhoto) : list PhotoData :=
  mapi (fun photo i =>
          {| id := src_id photo;
             url := src_url photo;
             aspectRatio := src_aspectRatio photo;
             ribbonT := curveParameter (List.length sourcePhotos) i |})
       sourcePhotos.

(** [photos.map(p => ({ id: p.id, url: p.url, aspectRatio: p.aspectRatio }))]. *)
Definition toSource (p : PhotoData) : SourcePhoto :=
  {| src_id := id p; src_url := url p; src_aspectRatio := aspectRatio p |}.

End Placement.

(** ** Gesture classifier (components/GestureController.tsx) *)

Module Gesture.

Inductive Gesture : Type := POINT | OPEN | FIST | NONE.

Definition Gesture_eqb (a b : Gesture) : bool :=
  match a, b with
  | POINT, POINT | OPEN, OPEN | FIST, FIST | NONE, NONE => true
  | _, _ => false
  end.

(** A landmark of MediaPipe, in normalised image space. *)
Record Landmark : Type := { x : Q; y : Q; z : Q }.

(** One detected hand: its landmarks by index (MediaPipe gives 21 of them;
    the code reads 0, 4, 8, 12, 16 and 20). *)
Definition Hand : Type := nat -> Landmark.

Local Open Scope R_scope.

(** [Math.sqrt(Math.pow(p1.x - p2.x, 2) + Math.pow(p1.y - p2.y, 2)
               + Math.pow(p1.z - p2.z, 2))]. *)
Definition dist (p1 p2 : Landmark) : R :=
  sqrt (Q2R ((x p1 - x p2) ^ 2 + (y p1 - y p2) ^ 2 + (z p1 - z p2) ^ 2)).

Definition Rltb (a b : R) : bool := if Rlt_dec a b then true else false.

Definition tipsToWristAvg (landmarks : Hand) : R :=
  let indexTip := landmarks 8%nat in
  let middleTip := landmarks 12%nat in
  let ringTip := landmarks 16%nat in
  let pinkyTip := landmarks 20%nat in
  let wrist := landmarks 0%nat in
  (dist indexTip wrist + dist middleTip wrist + dist ringTip wrist
   + dist pinkyTip wrist) / 4.

(** The per-frame classification of [predictWebcam]. *)
Definition detectGesture (landmarks : Hand) : Gesture :=
  let indexTip := landmarks 8%nat in
  let middleTip := landmarks 12%nat in
  let ringTip := landmarks 16%nat in
  let pinkyTip := landmarks 20%nat in
  let wrist := landmarks 0%nat in
  let isFist := Rltb (tipsToWristAvg landmarks) 0.25 in
  let isOpen := Rltb 0.45 (tipsToWristAvg landmarks) in
  let isIndexExtended := Rltb 0.35 (dist indexTip wrist) in
  let areOthersCurled :=
    Rltb (dist middleTip wrist) 0.3
    && Rltb (dist ringTip wrist) 0.3
    && Rltb (dist pinkyTip wrist) 0.3 in
  let isPointing := isIndexExtended && areOthersCurled in
  if isFist then FIST
  else if isPointing then POINT
  else if isOpen then OPEN
  else NONE.

(** Sample hands: wrist at the origin, the four fingertips on the x axis at
    the given distances from it. *)
Definition alongX (a : Q) : Landmark := {| x := a; y := 0%Q; z := 0%Q |}.

Definition handWithTips (dIndex dMiddle dRing dPinky : Q) : Hand :=
  fun i =>
    match i with
    | 8%nat => alongX dIndex
    | 12%nat => alongX dMiddle
    | 16%nat => alongX dRing
    | 20%nat => alongX dPinky
    | _ => alongX 0%Q
    end.

(** The two refs of the debounce gate. *)
Record Refs : Type := { lastGesture : Gesture; gestureDebounce : Z }.

(** [useRef('NONE')] and [useRef(0)]. *)
Definition initialRefs : Refs := {| lastGesture := NONE; gestureDebounce := 0 |}.

Local Open Scope Z_scope.

(** [if (detectedGesture !== lastGesture.current) {
       if (nowInMs - gestureDebounce.current > 150) {
         lastGesture.current = detectedGesture;
         gestureDebounce.current = nowInMs;
         onGestureRef.current(detectedGesture); } }]
    The second component is the call of [onGesture], if any. *)
Definition debounce (refs : Refs) (detectedGesture : Gesture) (nowInMs : Z)
  : Refs * option Gesture :=
  if negb (Gesture_eqb detectedGesture (lastGesture refs)) then
    if 150 <? nowInMs - gestureDebounce refs then
      ({| lastGesture := detectedGesture; gestureDebounce := nowInMs |},
       Some detectedGesture)
    else (refs, None)
  else (refs, None).

(** What one scheduled call of [predictWebcam] sees. *)
Inductive Frame : Type :=
| NotReady                                   (* no video, no model yet, or detection threw *)
| Detected (nowInMs : Z) (landmarks : list Hand).  (* [results.landmarks] *)

(** The calls made on the consumer during one frame. *)
Record Calls : Type :=
  { onHandMove : option (Q * Q); onGesture : option Gesture }.

Definition predictWebcam (refs : Refs) (frame : Frame) : Refs * Calls :=
  match frame with
  | NotReady => (refs, {| onHandMove := None; onGesture := None |})
  | Detected _ [] => (refs, {| onHandMove := None; onGesture := None |})
  | Detected nowInMs (landmarks :: _) =>
      let xRaw := x (landmarks 0%nat) in
      let y0 := y (landmarks 0%nat) in
      let currentX := (1 - xRaw)%Q in
      let '(refs', emitted) := debounce refs (detectGesture landmarks) nowInMs in
      (refs', {| onHandMove := Some (currentX, y0); onGesture := emitted |})
  end.

(** The gestures handed to [onGesture] over a run of frames, oldest first. *)
Fixpoint emissions (refs : Refs) (frames : list Frame) : list Gesture :=
  match frames with
  | [] => []
  | frame :: rest =>
      let '(refs', calls) := predictWebcam refs frame in
      match onGesture calls with
      | Some g => g :: emissions refs' rest
      | None => emissions refs' rest
      end
  end.

(** The same for a run of already classified gestures with their clock. *)
Fixpoint gated (refs : Refs) (samples : list (Gesture * Z)) : list Gesture :=
  match samples with
  | [] => []
  | (g, nowInMs) :: rest =>
      let '(refs', emitted) := debounce refs g nowInMs in
      match emitted with
      | Some e => e :: gated refs' rest
      | None => gated refs' rest
      end
  end.

End Gesture.

(** ** Application state machine (App.tsx) *)

Module App.
Import Placement.
Export Gesture.

(** The React state and the history ref of [App].  State updates are taken
    to be applied before the next event is handled. *)
Record State : Type :=
  { appState : AppState;
    handRotation : option (Q * Q);
    gestureStatus : Gesture;
    photos : list PhotoData;
    featuredPhotoId : option string;
    recentPhotos : list string }.          (* [recentPhotosRef.current], oldest first *)

(** The values given to [useState] and [useRef]. *)
Definition initialState : State :=
  {| appState := CHAOS;
     handRotation := None;
     gestureStatus := NONE;
     photos := [];
     featuredPhotoId := None;
     recentPhotos := [] |}.

Definition MAX_HISTORY : nat := 5.

(** [array.includes(s)]. *)
Definition includes (l : list string) (s : string) : bool :=
  existsb (String.eqb s) l.

(** [array[i]] for an integer [i]: [undefined] out of range. *)
Definition index {A : Type} (l : list A) (i : Z) : option A :=
  if (i <? 0)%Z then None else nth_error l (Z.to_nat i).

(** [Math.floor(u * n)] where [u] is the value of [Math.random()]. *)
Definition randomIdx (u : Q) (n : nat) : Z :=
  Qfloor (u * inject_Z (Z.of_nat n)).

(** The candidate set of a POINT selection:
    [let candidates = photos;
     const strictCandidates = photos.filter(p => !recent.includes(p.id));
     if (strictCandidates.length > 0) candidates = strictCandidates;
     else if (photos.length > 1 && recent.length > 0) {
       const lastViewed = recent[recent.length - 1];
       candidates = photos.filter(p => p.id !== lastViewed); }] *)
Definition selectCandidates (photos : list PhotoData) (recent : list string)
  : list PhotoData :=
  let strictCandidates := filter (fun p => negb (includes recent (id p))) photos in
  if (0 <? List.length strictCandidates)%nat then strictCandidates
  else if ((1 <? List.length photos)%nat && (0 <? List.length recent)%nat)%bool then
    let lastViewed := last recent EmptyString in
    filter (fun p => negb (String.eqb (id p) lastViewed)) photos
  else photos.

(** [const newHistory = [...recent, selectedId];
     if (newHistory.length > MAX_HISTORY) newHistory.shift();] *)
Definition pushHistory (recent : list string) (selectedId : string) : list string :=
  let newHistory := recent ++ [selectedId] in
  if (MAX_HISTORY <? List.length newHistory)%nat then tl newHistory else newHistory.

(** [handleGesture(gesture)], with [u] the value [Math.random()] returns if
    it is called.  [None] stands for the [TypeError] of reading [.id] of
    [undefined]. *)
Definition handleGesture (gesture : Gesture) (u : Q) (st : State) : option State :=
  match gesture with
  | POINT =>
      if negb (AppState_eqb (appState st) FOCUS) then
        if (0 <? List.length (photos st))%nat then
          let candidates := selectCandidates (photos st) (recentPhotos st) in
          match index candidates (randomIdx u (List.length candidates)) with
          | None => None
          | Some selected =>
              Some {| appState := FOCUS;
                      handRotation := None;
                      gestureStatus := POINT;
                      photos := photos st;
                      featuredPhotoId := Some (id selected);
                      recentPhotos := pushHistory (recentPhotos st) (id selected) |}
          end
        else
          Some {| appState := FOCUS;
                  handRotation := handRotation st;
                  gestureStatus := POINT;
                  photos := photos st;
                  featuredPhotoId := featuredPhotoId st;
                  recentPhotos := recentPhotos st |}
      else
        Some {| appState := appState st;
                handRotation := handRotation st;
                gestureStatus := POINT;
                photos := photos st;
                featuredPhotoId := featuredPhotoId st;
                recentPhotos := recentPhotos st |}
  | OPEN =>
      Some {| appState := CHAOS;
              handRotation := handRotation st;
              gestureStatus := OPEN;
              photos := photos st;
              featuredPhotoId := None;
              recentPhotos := recentPhotos st |}
  | FIST =>
      Some {| appState := FORMED;
              handRotation := handRotation st;
              gestureStatus := FIST;
              photos := photos st;
              featuredPhotoId := None;
              recentPhotos := recentPhotos st |}
  | NONE =>
      Some {| appState := appState st;
              handRotation := handRotation st;
              gestureStatus := NONE;
              photos := photos st;
              featuredPhotoId := featuredPhotoId st;
              recentPhotos := recentPhotos st |}
  end.

(** [handleHandMove(x, y)]: [if (appState !== FOCUS) setHandRotation({x, y})]. *)
Definition handleHandMove (xy : Q * Q) (st : State) : State :=
  if negb (AppState_eqb (appState st) FOCUS) then
    {| appState := appState st;
       handRotation := Some xy;
       gestureStatus := gestureStatus st;
       photos := photos st;
       featuredPhotoId := featuredPhotoId st;
       recentPhotos := recentPhotos st |}
  else st.

(** The assemble / release button:
    [setAppState(prev => prev === CHAOS ? FORMED : CHAOS)]. *)
Definition toggle (st : State) : State :=
  {| appState := if AppState_eqb (appState st) CHAOS then FORMED else CHAOS;
     handRotation := handRotation st;
     gestureStatus := gestureStatus st;
     photos := photos st;
     featuredPhotoId := featuredPhotoId st;
     recentPhotos := recentPhotos st |}.

(** [handlePhotoUpload] once every file is stored. *)
Definition handlePhotoUpload (newSourceData : list SourcePhoto) (st : State) : State :=
  if (0 <? List.length newSourceData)%nat then
    {| appState := FORMED;
       handRotation := handRotation st;
       gestureStatus := gestureStatus st;
       photos := generatePhotoPositions (map toSource (photos st) ++ newSourceData);
       featuredPhotoId := featuredPhotoId st;
       recentPhotos := recentPhotos st |}
  else st.

(** [handleRemovePhoto(id)] once the record is deleted from the store. *)
Definition handleRemovePhoto (removed : string) (st : State) : State :=
  {| appState := appState st;
     handRotation := handRotation st;
     gestureStatus := gestureStatus st;
     photos :=
       generatePhotoPositions
         (map toSource (filter (fun p => negb (String.eqb (id p) removed)) (photos st)));
     featuredPhotoId := featuredPhotoId st;
     recentPhotos :=
       filter (fun recId => negb (String.eqb recId removed)) (recentPhotos st) |}.

(** [loadPhotos] once the store has answered. *)
Definition loadPhotos (savedPhotos : list SourcePhoto) (st : State) : State :=
  if (0 <? List.length savedPhotos)%nat then
    {| appState := FORMED;
       handRotation := handRotation st;
       gestureStatus := gestureStatus st;
       photos := generatePhotoPositions savedPhotos;
       featuredPhotoId := featuredPhotoId st;
       recentPhotos := recentPhotos st |}
  else st.

(** What can happen to [App]. *)
Inductive Event : Type :=
| EGesture (gesture : Gesture) (u : Q)
| EHandMove (xy : Q * Q)
| EToggle
| EUpload (newSourceData : list SourcePhoto)
| ERemove (removed : string)
| ELoad (savedPhotos : list SourcePhoto).

Definition step (e : Event) (st : State) : option State :=
  match e with
  | EGesture gesture u => handleGesture gesture u st
  | EHandMove xy => Some (handleHandMove xy st)
  | EToggle => Some (toggle st)
  | EUpload newSourceData => Some (handlePhotoUpload newSourceData st)
  | ERemove removed => Some (handleRemovePhoto removed st)
  | ELoad savedPhotos => Some (loadPhotos savedPhotos st)
  end.

(** A value [Math.random()] can return. *)
Definition validDraw (u : Q) : Prop := (0 <= u /\ u < 1)%Q.

Definition validEvent (e : Event) : Prop :=
  match e with
  | EGesture _ u => validDraw u
  | _ => True
  end.

(** The states [App] can be in. *)
Inductive reachable : State -> Prop :=
| reachable_initial : reachable initialState
| reachable_step e st st' :
    reachable st -> validEvent e -> step e st = Some st' -> reachable st'.

(** A run of hand-position samples. *)
Definition handMoves (samples : list (Q * Q)) (st : State) : State :=
  fold_left (fun s xy => handleHandMove xy s) samples st.

(** [N] POINT selections in sequence, one per draw, each released by an
    OPEN gesture before the next.  The first component is the featured
    photo after each POINT, oldest first. *)
Fixpoint pointRounds (draws : list Q) (st : State)
  : option (list (option string) * State) :=
  match draws with
  | [] => Some ([], st)
  | u :: rest =>
      match handleGesture POINT u st with
      | None => None
      | Some focused =>
          match handleGesture OPEN u focused with
          | None => None
          | Some released =>
              match pointRounds rest released with
              | None => None
              | Some (selections, final) =>
                  Some (featuredPhotoId focused :: selections, final)
              end
          end
      end
  end.

(** A stored photo, for sample states. *)
Definition samplePhoto (name : string) : SourcePhoto :=
  {| src_id := name; src_url := name; src_aspectRatio := 1 |}.

(** [App] once the store has answered with the named photos. *)
Definition loaded (names : list string) : State :=
  loadPhotos (map samplePhoto names) initialState.

(** The last [n] elements of a list. *)
Definition lastn {A : Type} (n : nat) (l : list A) : list A :=
  skipn (List.length l - n) l.

End App.

(** ** More of the transition engine *)

Module Shaders.
Import Transition.
Local Open Scope Q_scope.

(** What is left of the distance to the target after a run of frames: the
    product of the factors [1 - delta * rate]. *)
Fixpoint remaining (f : Family) (deltas : list Q) : Q :=
  match deltas with
  | [] => 1
  | delta :: rest => (1 - delta * rate f) * remaining f rest
  end.

(** [c] lies between [a] and [b]. *)
Definition between (a b c : Q) : Prop :=
  (a <= c /\ c <= b) \/ (b <= c /\ c <= a).

(** Foliage vertex shader: [vAlpha = 0.8 + 0.2 * ease]. *)
Definition foliageAlpha (uProgress : Q) : Q := 0.8 + 0.2 * ease uProgress.

(** GLSL [mod(x, y) = x - y * floor(x / y)]. *)
Definition glsl_mod (x y : Q) : Q := x - y * inject_Z (Qfloor (x / y)).

(** Ribbon vertex shader, snow particles ([aType > 0.5]): the height before
    the blend.
    [if (uProgress > 0.01) {
       float fallSpeed = aSpeed * 3.0;
       float yDrop = uTime * fallSpeed;
       float heightRange = 40.0;
       float currentY = aTargetPos.y - yDrop;
       currentPos.y = mod(currentY + 20.0, heightRange) - 20.0; }] *)
Definition snowCurrentY (aTargetPosY uTime aSpeed uProgress : Q) : Q :=
  if Qlt_le_dec 0.01 uProgress then
    let fallSpeed := aSpeed * 3 in
    let yDrop := uTime * fallSpeed in
    let heightRange := 40 in
    let currentY := aTargetPosY - yDrop in
    glsl_mod (currentY + 20) heightRange - 20
  else aTargetPosY.

(** The height of a snow particle after [mix(aChaosPos, currentPos, ease)]. *)
Definition snowY (aChaosPosY aTargetPosY uTime aSpeed uProgress : Q) : Q :=
  mix1 aChaosPosY (snowCurrentY aTargetPosY uTime aSpeed uProgress) (ease uProgress).

End Shaders.

(** ** Rotation and physics controller (components/TreeGroup.tsx) *)

Module Rotation.
Import Transition.
Local Open Scope Q_scope.

(** The refs of [TreeGroup] and the rotation of the group it owns. *)
Record Rig : Type :=
  { angularVelocity : Q;
    lastPointerX : Q;
    isDragging : bool;
    currentRotationY : Q;
    rotationX : Q;          (* [groupRef.current.rotation.x] *)
    rotationY : Q }.        (* [groupRef.current.rotation.y] *)

Definition initialRig : Rig :=
  {| angularVelocity := 0; lastPointerX := 0; isDragging := false;
     currentRotationY := 0; rotationX := 0; rotationY := 0 |}.

Definition handlePointerDown (clientX : Q) (rig : Rig) : Rig :=
  {| angularVelocity := angularVelocity rig;
     lastPointerX := clientX;
     isDragging := true;
     currentRotationY := currentRotationY rig;
     rotationX := rotationX rig;
     rotationY := rotationY rig |}.

Definition handlePointerUp (rig : Rig) : Rig :=
  {| angularVelocity := angularVelocity rig;
     lastPointerX := lastPointerX rig;
     isDragging := false;
     currentRotationY := currentRotationY rig;
     rotationX := rotationX rig;
     rotationY := rotationY rig |}.

(** [if (!isDragging.current) return;
     const deltaX = e.clientX - lastPointerX.current;
     lastPointerX.current = e.clientX;
     if (size.width > 0) angularVelocity.current += (deltaX / size.width) * 15;] *)
Definition handlePointerMove (width clientX : Q) (rig : Rig) : Rig :=
  if negb (isDragging rig) then rig
  else
    let deltaX := clientX - lastPointerX rig in
    {| angularVelocity :=
         if Qlt_le_dec 0 width then angularVelocity rig + (deltaX / width) * 15
         else angularVelocity rig;
       lastPointerX := clientX;
       isDragging := true;
       currentRotationY := currentRotationY rig;
       rotationX := rotationX rig;
       rotationY := rotationY rig |}.

Section Frame.
(** [Math.PI]. *)
Variable PI : Q.

(** The [useFrame] callback once the group is mounted.  The idle test
    [appState === FORMED || appState === CHAOS || appState === FOCUS] names
    every state. *)
Definition useFrame (appState : AppState) (handRotation : option (Q * Q))
    (delta : Q) (rig : Rig) : Rig :=
  match handRotation with
  | Some (hx, hy) =>
      let targetRotY := (hx - 0.5) * PI * 2 in
      let targetTiltX := (hy - 0.5) * 0.5 in
      let newY := lerp (rotationY rig) targetRotY (delta * 3) in
      {| angularVelocity := 0;
         lastPointerX := lastPointerX rig;
         isDragging := isDragging rig;
         currentRotationY := newY;
         rotationX := lerp (rotationX rig) targetTiltX (delta * 3);
         rotationY := newY |}
  | None =>
      let moved := currentRotationY rig + angularVelocity rig * delta * 10 in
      let velocity := angularVelocity rig * 0.95 in
      let idle :=
        (AppState_eqb appState FORMED || AppState_eqb appState CHAOS
         || AppState_eqb appState FOCUS)
        && negb (isDragging rig)
        && (if Qlt_le_dec (Qabs velocity) 0.05 then true else false) in
      let current := if idle then moved + delta * 0.1 else moved in
      {| angularVelocity := velocity;
         lastPointerX := lastPointerX rig;
         isDragging := isDragging rig;
         currentRotationY := current;
         rotationX := lerp (rotationX rig) 0 delta;
         rotationY := current |}
  end.

(** A run of frames under one application state and hand-rotation value. *)
Definition frames (appState : AppState) (handRotation : option (Q * Q))
    (deltas : list Q) (rig : Rig) : Rig :=
  fold_left (fun r delta => useFrame appState handRotation delta r) deltas rig.

End Frame.

(** A drag: the pointer positions of the move events that follow a press. *)
Definition drag (width : Q) (moves : list Q) (rig : Rig) : Rig :=
  fold_left (fun r clientX => handlePointerMove width clientX r) moves rig.

Definition Qsum (l : list Q) : Q := fold_right Qplus 0 l.

End Rotation.

(** ** Photo cards (components/Photos.tsx) *)

Module Photos.
Import Transition Placement.
Local Open Scope Q_scope.

(** [if (featuredPhotoId)]: neither [null] nor the empty string. *)
Definition truthy (featuredPhotoId : option string) : bool :=
  match featuredPhotoId with
  | Some s => negb (String.eqb s EmptyString)
  | None => false
  end.

(** [scale: 1.2] of every record made by [generatePhotoPositions]. *)
Definition photoScale : Q := 1.2.

Definition isFeatured (featuredPhotoId : option string) (photo : PhotoData) : bool :=
  match featuredPhotoId with
  | Some s => truthy featuredPhotoId && String.eqb (id photo) s
  | None => false
  end.

(** [targetScale]: 3 for the featured photo, 0 for the others while one is
    featured, the photo's own scale otherwise. *)
Definition targetScale (featuredPhotoId : option string) (photo : PhotoData) : Q :=
  if truthy featuredPhotoId then
    if isFeatured featuredPhotoId photo then 3 else 0
  else photoScale.

(** [child.scale.lerp(new Vector3(targetScale, ...), delta * 4.0)], one
    component. *)
Definition scaleFrame (featuredPhotoId : option string) (photo : PhotoData)
    (delta scale : Q) : Q :=
  lerp scale (targetScale featuredPhotoId photo) (delta * 4).

(** The snap lock of the featured photo:
    [child.scale.x > targetScale * 0.9]. *)
Definition snapLocked (featuredPhotoId : option string) (photo : PhotoData)
    (scale : Q) : bool :=
  isFeatured featuredPhotoId photo
  && (if Qlt_le_dec (targetScale featuredPhotoId photo * 0.9) scale then true else false).

Definition scaleFrames (featuredPhotoId : option string) (photo : PhotoData)
    (deltas : list Q) (scale : Q) : Q :=
  fold_left (fun s delta => scaleFrame featuredPhotoId photo delta s) deltas scale.

End Photos.

(** ** Persistence (utils/persistence.ts) *)

Module Persistence.
Import Placement.
Local Open Scope Z_scope.

Record SavedPhoto : Type :=
  { sp_id : string; sp_url : string; sp_aspectRatio : Q; sp_timestamp : Z }.

(** [results.sort((a, b) => a.timestamp - b.timestamp)]: the sort of an
    array is stable, so it is the insertion of each record, from the last
    to the first, before the first record whose timestamp is not smaller. *)
Fixpoint insertByTimestamp (r : SavedPhoto) (sorted : list SavedPhoto) : list SavedPhoto :=
  match sorted with
  | [] => [r]
  | s :: rest =>
      if sp_timestamp r <=? sp_timestamp s then r :: s :: rest
      else s :: insertByTimestamp r rest
  end.

(** [a] may come before [b] in the sorted array. *)
Definition byTimestamp (a b : SavedPhoto) : Prop := sp_timestamp a <= sp_timestamp b.

Definition sortByTimestamp (results : list SavedPhoto) : list SavedPhoto :=
  fold_right insertByTimestamp [] results.

(** [getAllPhotosFromDB] from the answer of [store.getAll()]. *)
Definition getAllPhotosFromDB (results : list SavedPhoto) : list SourcePhoto :=
  map (fun r => {| src_id := sp_id r; src_url := sp_url r;
                   src_aspectRatio := sp_aspectRatio r |})
      (sortByTimestamp results).

End Persistence.

(** ** Chaos positions (utils/math.ts, [randomSpherePoint]) *)

Module Sphere.
Local Open Scope R_scope.

(** [Math.cbrt]. *)
Definition cbrt (w : R) : R :=
  if Rlt_dec 0 w then Rpower w (/ 3)
  else if Rlt_dec w 0 then - Rpower (- w) (/ 3)
  else 0.

(** [randomSpherePoint(radius)], with [u], [v] and [w] the three values of
    [Math.random()] in the order they are drawn. *)
Definition randomSpherePoint (radius u v w : R) : R * R * R :=
  let theta := 2 * PI * u in
  let phi := acos (2 * v - 1) in
  let r := cbrt w * radius in
  let sinPhi := sin phi in
  (r * sinPhi * cos theta, r * sinPhi * sin theta, r * cos phi).

Definition normSquared (p : R * R * R) : R :=
  let '(a, b, c) := p in a * a + b * b + c * c.

End Sphere.

(** ** More of the gesture controller *)

Module GestureTrace.
Import Gesture.

(** The emissions of a run of frames with the clock value of each. *)
Fixpoint timedEmissions (refs : Refs) (frames : list Frame) : list (Gesture * Z) :=
  match frames with
  | [] => []
  | frame :: rest =>
      let '(refs', calls) := predictWebcam refs frame in
      match frame, onGesture calls with
      | Detected nowInMs _, Some g => (g, nowInMs) :: timedEmissions refs' rest
      | _, _ => timedEmissions refs' rest
      end
  end.

(** The refs after a run of frames. *)
Definition runFrames (refs : Refs) (frames : list Frame) : Refs :=
  fold_left (fun r frame => fst (predictWebcam r frame)) frames refs.

(** The hand moved as a whole by [v]. *)
Definition translate (v : Landmark) (landmarks : Hand) : Hand :=
  fun i =>
    {| x := (x (landmarks i) + x v)%Q;
       y := (y (landmarks i) + y v)%Q;
       z := (z (landmarks i) + z v)%Q |}.

(** Every two neighbours of a list satisfy [R]. *)
Fixpoint chained {A : Type} (R : A -> A -> Prop) (l : list A) : Prop :=
  match l with
  | a :: (b :: _) as rest => R a b /\ chained R rest
  | _ => True
  end.

End GestureTrace.

(** ** More of the application state machine *)

Module AppRuns.
Import Placement App.

(** A run of events; [None] when one of them throws. *)
Fixpoint run (events : list Event) (st : State) : option State :=
  match events with
  | [] => Some st
  | e :: rest =>
      match step e st with
      | None => None
      | Some st' => run rest st'
      end
  end.

End AppRuns.

(** * Properties *)

(** ** Transition engine *)

Section TransitionProps.
Import Transition.
Local Open Scope Q_scope.

Lemma rate_pos (f : Family) : 0 < rate f.
Proof. destruct f; reflexivity. Qed.

Lemma targetProgress_binary (s : AppState) :
  targetProgress s = 0 \/ targetProgress s = 1.
Proof. destruct s; auto. Qed.

Lemma lerp_le (x y t : Q) :
  0 <= t -> t <= 1 -> x <= y -> x <= lerp x y t /\ lerp x y t <= y.
Proof. intros H0 H1 Hxy. unfold lerp. split; nra. Qed.

Lemma lerp_ge (x y t : Q) :
  0 <= t -> t <= 1 -> y <= x -> y <= lerp x y t /\ lerp x y t <= x.
Proof. intros H0 H1 Hxy. unfold lerp. split; nra. Qed.

Lemma useFrame_towards (f : Family) (mounted : bool) (s : AppState) (delta p : Q) :
  inUnit p -> smallStep f delta ->
  inUnit (useFrame f mounted s delta p)
  /\ towards (targetProgress s) p (useFrame f mounted s delta p).
Proof.
  intros [Hp0 Hp1] [Hd Hk].
  assert (Ht : 0 <= delta * rate f) by (pose proof (rate_pos f); nra).
  unfold useFrame, inUnit, towards. destruct mounted.
  - destruct (targetProgress_binary s) as [E | E]; rewrite E.
    + destruct (lerp_ge p 0 (delta * rate f) Ht Hk Hp0) as [A B]. lra.
    + destruct (lerp_le p 1 (delta * rate f) Ht Hk Hp1) as [A B]. lra.
  - destruct (targetProgress_binary s) as [E | E]; rewrite E; lra.
Qed.

Lemma frames_inUnit (f : Family) (s : AppState) (deltas : list Q) :
  forall p, inUnit p -> Forall (smallStep f) deltas -> inUnit (frames f s deltas p).
Proof.
  induction deltas as [| d rest IH]; intros p Hp Hall; simpl.
  - exact Hp.
  - inversion Hall as [| ? ? Hd Hrest]; subst.
    apply IH; [| exact Hrest].
    apply (useFrame_towards f true s d p Hp Hd).
Qed.

Lemma frames_snoc (f : Family) (s : AppState) (deltas : list Q) (delta : Q) :
  forall p, frames f s (deltas ++ [delta]) p
            = useFrame f true s delta (frames f s deltas p).
Proof.
  induction deltas as [| d rest IH]; intros p; simpl.
  - reflexivity.
  - apply IH.
Qed.

(** C1, as the code has it: over any run of frames whose timesteps keep
    [delta * rate] within [[0, 1]], whatever the family and the application
    state, the progress stays in [[0, 1]] and every further such frame moves
    it toward the target without passing it. *)
Theorem progress_small_steps_monotone_bounded
    (f : Family) (s : AppState) (deltas : list Q) (delta p : Q) :
  inUnit p -> Forall (smallStep f) deltas -> smallStep f delta ->
  inUnit (frames f s deltas p)
  /\ inUnit (frames f s (deltas ++ [delta]) p)
  /\ towards (targetProgress s) (frames f s deltas p)
             (frames f s (deltas ++ [delta]) p).
Proof.
  intros Hp Hall Hd.
  pose proof (frames_inUnit f s deltas p Hp Hall) as Hq.
  rewrite frames_snoc.
  destruct (useFrame_towards f true s delta _ Hq Hd) as [A B].
  repeat split; try apply Hq; try apply A. exact B.
Qed.

Lemma progress_small_steps_witness :
  inUnit 0 /\ inUnit (frames Foliage FORMED [0.016; 1] 0)
  /\ towards 1 (frames Foliage FORMED [0.016] 0) (frames Foliage FORMED [0.016; 1] 0).
Proof.
  assert (H0 : inUnit 0) by (split; discriminate).
  assert (H1 : Forall (smallStep Foliage) [0.016])
    by (constructor; [split; discriminate | constructor]).
  assert (H2 : smallStep Foliage 1) by (split; discriminate).
  destruct (progress_small_steps_monotone_bounded Foliage FORMED [0.016] 1 0 H0 H1 H2)
    as [_ [A B]].
  split; [exact H0 | split; [exact A | exact B]].
Defined.

(** C1, as stated, fails: the lerp is not clamped, so one timestep of five
    seconds takes the foliage progress from 0 to 4. *)
Lemma progress_spike_counterexample :
  inUnit 0 /\ frames Foliage FORMED [5] 0 == 4
  /\ ~ inUnit (frames Foliage FORMED [5] 0).
Proof.
  split; [split; discriminate |].
  split; [reflexivity |].
  intros [_ H]. apply H. reflexivity.
Qed.

(** C7: [ease] is [4t^3] below one half and [1 - (-2t+2)^3/2] from there on;
    [ease 0 = 0] and [ease 1 = 1]; hence the blended position is the chaos
    position at progress 0 and the target position at progress 1. *)
Theorem ease_endpoints_blend (aChaosPos aTargetPos : vec3) (t : Q) :
  (t < 0.5 -> ease t == 4 * t ^ 3)
  /\ (0.5 <= t -> ease t == 1 - (-2 * t + 2) ^ 3 / 2)
  /\ ease 0 == 0 /\ ease 1 == 1
  /\ vec3_eq (blend aChaosPos aTargetPos 0) aChaosPos
  /\ vec3_eq (blend aChaosPos aTargetPos 1) aTargetPos.
Proof.
  assert (E0 : ease 0 == 0) by reflexivity.
  assert (E1 : ease 1 == 1) by reflexivity.
  split.
  { intros Hlt. unfold ease. destruct (Qlt_le_dec t 0.5) as [_ | Hge].
    - simpl. ring.
    - exfalso. apply (Qlt_not_le _ _ Hlt Hge). }
  split.
  { intros Hge. unfold ease. destruct (Qlt_le_dec t 0.5) as [Hlt | _].
    - exfalso. apply (Qlt_not_le _ _ Hlt Hge).
    - reflexivity. }
  split; [exact E0 |]. split; [exact E1 |].
  unfold vec3_eq, blend, mix, mix1; simpl.
  repeat split; rewrite ?E0, ?E1; ring.
Qed.

Lemma ease_endpoints_blend_witness :
  ease 0.25 == 4 * 0.25 ^ 3
  /\ ease 0.75 == 1 - (-2 * 0.75 + 2) ^ 3 / 2
  /\ vec3_eq (blend (Vec3 3 (-7) 2) (Vec3 1 5 0) 1) (Vec3 1 5 0).
Proof.
  split; [| split].
  - apply (proj1 (ease_endpoints_blend (Vec3 3 (-7) 2) (Vec3 1 5 0) 0.25)).
    reflexivity.
  - apply (proj1 (proj2 (ease_endpoints_blend (Vec3 3 (-7) 2) (Vec3 1 5 0) 0.75))).
    discriminate.
  - apply (ease_endpoints_blend (Vec3 3 (-7) 2) (Vec3 1 5 0) 0).
Defined.

End TransitionProps.

(** ** Photo placement *)

Section PlacementProps.
Import Placement.
Local Open Scope Q_scope.

Lemma nth_error_mapi_from {A B : Type} (f : A -> nat -> B) (l : list A) :
  forall k i, nth_error (mapi_from f k l) i
              = option_map (fun a => f a (k + i)%nat) (nth_error l i).
Proof.
  induction l as [| a rest IH]; intros k i.
  - destruct i; reflexivity.
  - destruct i as [| i]; simpl.
    + rewrite Nat.add_0_r. reflexivity.
    + rewrite IH. rewrite Nat.add_succ_r. reflexivity.
Qed.

Lemma generatePhotoPositions_nth (sourcePhotos : list SourcePhoto) (i : nat) (p : PhotoData) :
  nth_error (generatePhotoPositions sourcePhotos) i = Some p ->
  ribbonT p = curveParameter (List.length sourcePhotos) i
  /\ exists photo, nth_error sourcePhotos i = Some photo /\ id p = src_id photo.
Proof.
  unfold generatePhotoPositions, mapi. rewrite nth_error_mapi_from.
  destruct (nth_error sourcePhotos i) as [photo |]; simpl; [| discriminate].
  intros H. injection H as <-. simpl. split; [reflexivity |].
  exists photo. split; reflexivity.
Qed.

(** C8: the photo at index [i] of [N > 1] photos sits at curve parameter
    [0.15 + (i / (N - 1)) * 0.7]: [0.15 + (i / 4) * 0.7] for five photos,
    [0.15] and [0.85] for two; a single photo sits at [0.5]. *)
Theorem photo_curve_parameter
    (sourcePhotos : list SourcePhoto) (i : nat) (p : PhotoData) :
  nth_error (generatePhotoPositions sourcePhotos) i = Some p ->
  let N := List.length sourcePhotos in
  ((1 < N)%nat -> ribbonT p == 0.15 + (ofNat i / ofNat (N - 1)) * 0.7)
  /\ (N = 5%nat -> ribbonT p == 0.15 + (ofNat i / 4) * 0.7)
  /\ (N = 2%nat -> (i = 0%nat -> ribbonT p == 0.15) /\ (i = 1%nat -> ribbonT p == 0.85))
  /\ (N = 1%nat -> ribbonT p == 0.5).
Proof.
  intros Hnth N.
  destruct (generatePhotoPositions_nth _ _ _ Hnth) as [-> _]. fold N.
  split; [| split; [| split]].
  - intros HN. unfold curveParameter.
    apply Nat.ltb_lt in HN. rewrite HN. reflexivity.
  - intros ->. reflexivity.
  - intros ->. split; intros ->; reflexivity.
  - intros ->. reflexivity.
Qed.

Lemma photo_curve_parameter_witness :
  let a := {| src_id := "a"; src_url := "data:a"; src_aspectRatio := 1.5 |} in
  let b := {| src_id := "b"; src_url := "data:b"; src_aspectRatio := 0.75 |} in
  exists p, nth_error (generatePhotoPositions [a; b]) 1 = Some p
            /\ ribbonT p == 0.85.
Proof.
  intros a b. eexists. split; [reflexivity |].
  destruct (photo_curve_parameter [a; b] 1 _ eq_refl) as [_ [_ [H2 _]]].
  apply (proj2 (H2 eq_refl)). reflexivity.
Defined.

End PlacementProps.

(** ** Gesture classifier *)

Section GestureProps.
Import Gesture.

Section Classification.
Local Open Scope R_scope.

Lemma Rltb_true (a b : R) : Rltb a b = true <-> a < b.
Proof. unfold Rltb. destruct (Rlt_dec a b); split; intros; auto; discriminate. Qed.

Lemma Rltb_false (a b : R) : Rltb a b = false <-> ~ a < b.
Proof. unfold Rltb. destruct (Rlt_dec a b); split; intros; auto; try discriminate; contradiction. Qed.

(** [dist] is the Euclidean distance of the two points. *)
Lemma dist_euclidean (p1 p2 : Landmark) :
  dist p1 p2
  = sqrt ((Q2R (x p1) - Q2R (x p2)) ^ 2 + (Q2R (y p1) - Q2R (y p2)) ^ 2
          + (Q2R (z p1) - Q2R (z p2)) ^ 2).
Proof.
  unfold dist. f_equal.
  rewrite !Q2R_plus.
  assert (sq : forall a b : Q, Q2R ((a - b) ^ 2) = (Q2R a - Q2R b) ^ 2).
  { intros a b. simpl. rewrite Q2R_mult, Q2R_minus. ring. }
  rewrite !sq. reflexivity.
Qed.

Lemma dist_alongX (a : Q) : (0 <= a)%Q -> dist (alongX a) (alongX 0%Q) = Q2R a.
Proof.
  intros Ha. rewrite dist_euclidean. unfold alongX. cbn [x y z].
  replace ((Q2R a - Q2R 0) ^ 2 + (Q2R 0 - Q2R 0) ^ 2 + (Q2R 0 - Q2R 0) ^ 2)
    with (Q2R a * Q2R a) by (rewrite RMicromega.Q2R_0; ring).
  apply sqrt_square. rewrite <- RMicromega.Q2R_0. apply Qle_Rle. exact Ha.
Qed.

(** The four outcomes of the classification, by priority. *)
Lemma detectGesture_cases (landmarks : Hand) :
  let wrist := landmarks 0%nat in
  let dIndex := dist (landmarks 8%nat) wrist in
  let dMiddle := dist (landmarks 12%nat) wrist in
  let dRing := dist (landmarks 16%nat) wrist in
  let dPinky := dist (landmarks 20%nat) wrist in
  let avg := (dIndex + dMiddle + dRing + dPinky) / 4 in
  let pointing := 0.35 < dIndex /\ dMiddle < 0.3 /\ dRing < 0.3 /\ dPinky < 0.3 in
  (avg < 0.25 -> detectGesture landmarks = FIST)
  /\ (~ avg < 0.25 -> pointing -> detectGesture landmarks = POINT)
  /\ (~ avg < 0.25 -> ~ pointing -> 0.45 < avg -> detectGesture landmarks = OPEN)
  /\ (~ avg < 0.25 -> ~ pointing -> ~ 0.45 < avg -> detectGesture landmarks = NONE).
Proof.
  intros wrist dIndex dMiddle dRing dPinky avg pointing.
  unfold detectGesture, tipsToWristAvg.
  fold wrist. fold dIndex. fold dMiddle. fold dRing. fold dPinky. fold avg.
  split; [| split; [| split]].
  - intros Hf. apply Rltb_true in Hf. rewrite Hf. reflexivity.
  - intros Hf [Hi [Hm [Hr Hp]]].
    apply Rltb_false in Hf. apply Rltb_true in Hi, Hm, Hr, Hp.
    rewrite Hf, Hi, Hm, Hr, Hp. reflexivity.
  - intros Hf Hnp Ho.
    apply Rltb_false in Hf. apply Rltb_true in Ho. rewrite Hf, Ho.
    destruct (Rltb 0.35 dIndex && (Rltb dMiddle 0.3 && Rltb dRing 0.3 && Rltb dPinky 0.3))
      eqn:E; [| reflexivity].
    exfalso. apply Hnp.
    apply andb_true_iff in E as [Hi E]. apply andb_true_iff in E as [E Hp].
    apply andb_true_iff in E as [Hm Hr].
    apply Rltb_true in Hi, Hm, Hr, Hp. repeat split; assumption.
  - intros Hf Hnp Ho.
    apply Rltb_false in Hf, Ho. rewrite Hf, Ho.
    destruct (Rltb 0.35 dIndex && (Rltb dMiddle 0.3 && Rltb dRing 0.3 && Rltb dPinky 0.3))
      eqn:E; [| reflexivity].
    exfalso. apply Hnp.
    apply andb_true_iff in E as [Hi E]. apply andb_true_iff in E as [E Hp].
    apply andb_true_iff in E as [Hm Hr].
    apply Rltb_true in Hi, Hm, Hr, Hp. repeat split; assumption.
Qed.

(** C6: the classifier takes the Euclidean distances from the wrist to the
    index, middle, ring and pinky tips; it answers FIST when their average
    is below 0.25; otherwise POINT when the index distance exceeds 0.35 and
    the other three are each below 0.3, whatever the average; otherwise
    OPEN when the average exceeds 0.45; otherwise NONE. *)
Theorem detectGesture_priority (landmarks : Hand) :
  let wrist := landmarks 0%nat in
  let dIndex := dist (landmarks 8%nat) wrist in
  let dMiddle := dist (landmarks 12%nat) wrist in
  let dRing := dist (landmarks 16%nat) wrist in
  let dPinky := dist (landmarks 20%nat) wrist in
  let avg := (dIndex + dMiddle + dRing + dPinky) / 4 in
  let pointing := 0.35 < dIndex /\ dMiddle < 0.3 /\ dRing < 0.3 /\ dPinky < 0.3 in
  (forall p1 p2,
      dist p1 p2
      = sqrt ((Q2R (x p1) - Q2R (x p2)) ^ 2 + (Q2R (y p1) - Q2R (y p2)) ^ 2
              + (Q2R (z p1) - Q2R (z p2)) ^ 2))
  /\ (avg < 0.25 -> detectGesture landmarks = FIST)
  /\ (~ avg < 0.25 -> pointing -> detectGesture landmarks = POINT)
  /\ (~ avg < 0.25 -> ~ pointing -> 0.45 < avg -> detectGesture landmarks = OPEN)
  /\ (~ avg < 0.25 -> ~ pointing -> ~ 0.45 < avg -> detectGesture landmarks = NONE).
Proof.
  intros wrist dIndex dMiddle dRing dPinky avg pointing.
  split; [exact dist_euclidean | exact (detectGesture_cases landmarks)].
Qed.

(** Distances of the sample hands. *)
Lemma handWithTips_dists (dI dM dR dP : Q) :
  (0 <= dI)%Q -> (0 <= dM)%Q -> (0 <= dR)%Q -> (0 <= dP)%Q ->
  let h := handWithTips dI dM dR dP in
  dist (h 8%nat) (h 0%nat) = Q2R dI /\ dist (h 12%nat) (h 0%nat) = Q2R dM
  /\ dist (h 16%nat) (h 0%nat) = Q2R dR /\ dist (h 20%nat) (h 0%nat) = Q2R dP.
Proof.
  intros HI HM HR HP h. unfold h, handWithTips.
  repeat split; apply dist_alongX; assumption.
Qed.

Ltac sample_hand a b c d :=
  let HI := fresh "HI" in
  let HM := fresh "HM" in
  let HR := fresh "HR" in
  let HP := fresh "HP" in
  destruct (handWithTips_dists a b c d) as [HI [HM [HR HP]]];
  try discriminate;
  try rewrite HI; try rewrite HM; try rewrite HR; try rewrite HP;
  unfold Q2R; cbn [Qnum Qden]; try lra.

Lemma detect_fist_sample : detectGesture (handWithTips 0.1 0.1 0.1 0.1) = FIST.
Proof.
  apply (detectGesture_cases (handWithTips 0.1 0.1 0.1 0.1)).
  sample_hand 0.1%Q 0.1%Q 0.1%Q 0.1%Q.
Qed.

Lemma detect_none_sample : detectGesture (handWithTips 0.3 0.3 0.3 0.3) = NONE.
Proof.
  apply (detectGesture_cases (handWithTips 0.3 0.3 0.3 0.3)).
  - sample_hand 0.3%Q 0.3%Q 0.3%Q 0.3%Q.
  - intros [H _]. revert H. sample_hand 0.3%Q 0.3%Q 0.3%Q 0.3%Q.
  - sample_hand 0.3%Q 0.3%Q 0.3%Q 0.3%Q.
Qed.

Lemma detect_open_sample : detectGesture (handWithTips 0.5 0.5 0.5 0.5) = OPEN.
Proof.
  apply (detectGesture_cases (handWithTips 0.5 0.5 0.5 0.5)).
  - sample_hand 0.5%Q 0.5%Q 0.5%Q 0.5%Q.
  - intros [_ [H _]]. revert H. sample_hand 0.5%Q 0.5%Q 0.5%Q 0.5%Q.
  - sample_hand 0.5%Q 0.5%Q 0.5%Q 0.5%Q.
Qed.

Lemma detectGesture_priority_witness :
  detectGesture (handWithTips 0.4 0.2 0.2 0.2) = POINT.
Proof.
  apply (detectGesture_priority (handWithTips 0.4 0.2 0.2 0.2)).
  - destruct (handWithTips_dists 0.4 0.2 0.2 0.2) as [HI [HM [HR HP]]];
      try discriminate.
    rewrite HI, HM, HR, HP. unfold Q2R. cbn [Qnum Qden]. lra.
  - destruct (handWithTips_dists 0.4 0.2 0.2 0.2) as [HI [HM [HR HP]]];
      try discriminate.
    rewrite HI, HM, HR, HP. unfold Q2R. cbn [Qnum Qden]. lra.
Defined.

End Classification.

Section Debounce.
Local Open Scope Z_scope.

Lemma Gesture_eqb_eq (a b : Gesture) : Gesture_eqb a b = true <-> a = b.
Proof. destruct a, b; simpl; split; intros; congruence. Qed.

Lemma Gesture_eqb_neq (a b : Gesture) : Gesture_eqb a b = false <-> a <> b.
Proof. destruct a, b; simpl; split; intros; congruence. Qed.

(** The two outcomes of the gate. *)
Lemma debounce_cases (refs : Refs) (g : Gesture) (now : Z) :
  (g <> lastGesture refs /\ 150 < now - gestureDebounce refs
   /\ debounce refs g now = ({| lastGesture := g; gestureDebounce := now |}, Some g))
  \/ (~ (g <> lastGesture refs /\ 150 < now - gestureDebounce refs)
      /\ debounce refs g now = (refs, None)).
Proof.
  unfold debounce.
  destruct (Gesture_eqb g (lastGesture refs)) eqn:E; simpl.
  - right. apply Gesture_eqb_eq in E. split; [| reflexivity].
    intros [H _]. contradiction.
  - apply Gesture_eqb_neq in E.
    destruct (150 <? now - gestureDebounce refs) eqn:T.
    + left. apply Z.ltb_lt in T. auto.
    + right. apply Z.ltb_ge in T. split; [| reflexivity].
      intros [_ H]. lia.
Qed.

(** C5, as the code has it: the gate hands a classified gesture to the
    consumer exactly when it differs from the last emitted one and more
    than 150 ms have passed since the last emission.  Hence, of two
    distinct gestures of which the first is emitted, the second is emitted
    too when it comes more than 150 ms later, and is dropped when it comes
    at most 150 ms later. *)
Theorem debounce_strictly_more_than_150
    (refs : Refs) (g1 g2 : Gesture) (t1 t2 : Z) :
  (snd (debounce refs g1 t1) = Some g1
   <-> g1 <> lastGesture refs /\ t1 - gestureDebounce refs > 150)
  /\ (snd (debounce refs g1 t1) = None
      <-> ~ (g1 <> lastGesture refs /\ t1 - gestureDebounce refs > 150))
  /\ (g1 <> lastGesture refs -> t1 - gestureDebounce refs > 150 -> g2 <> g1 ->
      (t2 - t1 <= 150 -> gated refs [(g1, t1); (g2, t2)] = [g1])
      /\ (t2 - t1 > 150 -> gated refs [(g1, t1); (g2, t2)] = [g1; g2])).
Proof.
  split; [| split].
  - destruct (debounce_cases refs g1 t1) as [[Hd [Ht E]] | [Hn E]]; rewrite E; simpl.
    + split; [intros _; split; [exact Hd | lia] | reflexivity].
    + split; [discriminate |]. intros [Hd Ht]. exfalso. apply Hn. split; [exact Hd | lia].
  - destruct (debounce_cases refs g1 t1) as [[Hd [Ht E]] | [Hn E]]; rewrite E; simpl.
    + split; [discriminate |]. intros H. exfalso. apply H. split; [exact Hd | lia].
    + split; [| reflexivity]. intros _ [Hd Ht]. apply Hn. split; [exact Hd | lia].
  - intros Hd Ht Hg.
    assert (E1 : debounce refs g1 t1
                 = ({| lastGesture := g1; gestureDebounce := t1 |}, Some g1)).
    { destruct (debounce_cases refs g1 t1) as [[_ [_ E]] | [Hn _]]; [exact E |].
      exfalso. apply Hn. split; [exact Hd | lia]. }
    split; intros H2; simpl; rewrite E1.
    + destruct (debounce_cases {| lastGesture := g1; gestureDebounce := t1 |} g2 t2)
        as [[_ [Ht2 _]] | [_ E2]]; [simpl in Ht2; lia |].
      rewrite E2. reflexivity.
    + destruct (debounce_cases {| lastGesture := g1; gestureDebounce := t1 |} g2 t2)
        as [[_ [_ E2]] | [Hn _]].
      * rewrite E2. reflexivity.
      * exfalso. apply Hn. simpl. split; [exact Hg | lia].
Qed.

Lemma debounce_strictly_more_than_150_witness :
  gated initialRefs [(FIST, 1000); (OPEN, 1100)] = [FIST]
  /\ gated initialRefs [(FIST, 1000); (OPEN, 1151)] = [FIST; OPEN].
Proof.
  split.
  - apply (debounce_strictly_more_than_150 initialRefs FIST OPEN 1000 1100);
      simpl; (discriminate || lia).
  - apply (debounce_strictly_more_than_150 initialRefs FIST OPEN 1000 1151);
      simpl; (discriminate || lia).
Defined.

(** C5, as stated, fails at the boundary: a gesture that differs from the
    last emitted one and comes exactly 150 ms after it is dropped, so two
    distinct gestures 150 ms apart give one emission. *)
Lemma debounce_at_150_counterexample :
  let refs := {| lastGesture := FIST; gestureDebounce := 1000 |} in
  OPEN <> lastGesture refs
  /\ 1150 - gestureDebounce refs >= 150
  /\ snd (debounce refs OPEN 1150) = None
  /\ gated initialRefs [(FIST, 1000); (OPEN, 1150)] = [FIST].
Proof.
  simpl. repeat split; (discriminate || lia || reflexivity).
Qed.

(** The refs after a frame either are unchanged, with nothing emitted, or
    record the emitted gesture, which differs from the previous one. *)
Lemma predictWebcam_cases (refs : Refs) (frame : Frame) :
  (fst (predictWebcam refs frame) = refs
   /\ onGesture (snd (predictWebcam refs frame)) = None)
  \/ (exists g, onGesture (snd (predictWebcam refs frame)) = Some g
                /\ g <> lastGesture refs
                /\ lastGesture (fst (predictWebcam refs frame)) = g).
Proof.
  destruct frame as [| now [| landmarks rest]]; simpl; auto.
  destruct (debounce_cases refs (detectGesture landmarks) now)
    as [[Hd [_ E]] | [_ E]]; rewrite E; simpl.
  - right. exists (detectGesture landmarks). auto.
  - left. auto.
Qed.

(** The first emission of a run differs from the last emitted gesture. *)
Lemma emissions_head (frames : list Frame) :
  forall refs g rest, emissions refs frames = g :: rest -> g <> lastGesture refs.
Proof.
  induction frames as [| frame more IH]; intros refs g rest; simpl; [discriminate |].
  destruct (predictWebcam_cases refs frame) as [[Hr Hn] | [e [He [Hd _]]]];
    destruct (predictWebcam refs frame) as [refs' calls]; simpl in *.
  - rewrite Hn. subst refs'. apply IH.
  - rewrite He. intros H. injection H as <- _. exact Hd.
Qed.

(** C10: in the emissions of any run of frames from the initial refs, a
    NONE is preceded by some emitted gesture other than NONE; in
    particular the first emission is never NONE. *)
Theorem none_never_first (frames : list Frame) (before after : list Gesture) :
  emissions initialRefs frames = before ++ NONE :: after ->
  exists g rest, before = g :: rest /\ g <> NONE.
Proof.
  intros H. destruct before as [| g rest].
  - exfalso. apply (emissions_head frames initialRefs NONE after H). reflexivity.
  - exists g, rest. split; [reflexivity |].
    apply (emissions_head frames initialRefs g (rest ++ NONE :: after) H).
Qed.

Lemma emissions_sample :
  emissions initialRefs
    [Detected 1000 [handWithTips 0.1 0.1 0.1 0.1];
     Detected 2000 [handWithTips 0.3 0.3 0.3 0.3]]
  = [FIST] ++ NONE :: [].
Proof.
  simpl. rewrite detect_fist_sample. simpl. rewrite detect_none_sample. reflexivity.
Qed.

Lemma none_never_first_witness :
  exists g rest, [FIST] = g :: rest /\ g <> NONE.
Proof.
  exact (none_never_first _ [FIST] [] emissions_sample).
Defined.

End Debounce.
End GestureProps.

(** ** Application state machine *)

Section AppProps.
Import Placement App.

Lemma AppState_eqb_eq (a b : AppState) : AppState_eqb a b = true <-> a = b.
Proof. destruct a, b; simpl; split; intros; congruence. Qed.

Lemma AppState_eqb_neq (a b : AppState) : AppState_eqb a b = false <-> a <> b.
Proof. destruct a, b; simpl; split; intros; congruence. Qed.

(** *** The random index *)

Lemma randomIdx_range (u : Q) (n : nat) :
  validDraw u -> (0 < n)%nat -> (0 <= randomIdx u n < Z.of_nat n)%Z.
Proof.
  intros [H0 H1] Hn. unfold randomIdx.
  assert (Hq : (0 < inject_Z (Z.of_nat n))%Q).
  { rewrite <- (Zlt_Qlt 0). lia. }
  split.
  - change 0%Z with (Qfloor 0). apply Qfloor_resp_le. nra.
  - rewrite Zlt_Qlt.
    apply Qle_lt_trans with (u * inject_Z (Z.of_nat n))%Q; [apply Qfloor_le | nra].
Qed.

Lemma index_randomIdx {A : Type} (l : list A) (u : Q) :
  validDraw u -> l <> [] ->
  exists a, index l (randomIdx u (List.length l)) = Some a /\ In a l.
Proof.
  intros Hu Hl.
  assert (Hn : (0 < List.length l)%nat) by (destruct l; [contradiction | simpl; lia]).
  destruct (randomIdx_range u _ Hu Hn) as [Hlo Hhi].
  unfold index. destruct (randomIdx u (List.length l) <? 0)%Z eqn:E.
  - apply Z.ltb_lt in E. lia.
  - destruct (nth_error l (Z.to_nat (randomIdx u (List.length l)))) as [a |] eqn:N.
    + exists a. split; [reflexivity |]. apply (nth_error_In _ _ N).
    + exfalso. apply nth_error_None in N. lia.
Qed.

(** *** Candidates *)

Lemma includes_In (l : list string) (s : string) : includes l s = true <-> In s l.
Proof.
  unfold includes. rewrite existsb_exists. split.
  - intros [y [Hy E]]. apply String.eqb_eq in E. subst. exact Hy.
  - intros H. exists s. split; [exact H | apply String.eqb_refl].
Qed.

Lemma length_pos_nonempty {A : Type} (l : list A) :
  (0 <? List.length l)%nat = true <-> l <> [].
Proof.
  destruct l; simpl; split; intros; try congruence; try discriminate; reflexivity.
Qed.

(** With more photos than history entries, some photo is not in the
    history. *)
Lemma strictCandidates_nonempty (photos : list PhotoData) (recent : list string) :
  NoDup (map id photos) -> (List.length recent < List.length photos)%nat ->
  filter (fun p => negb (includes recent (id p))) photos <> [].
Proof.
  intros Hnd Hlen Hnil.
  assert (Hincl : incl (map id photos) recent).
  { intros s Hs. apply in_map_iff in Hs as [p [<- Hp]].
    destruct (includes recent (id p)) eqn:E; [apply includes_In; exact E |].
    exfalso. assert (Hin : In p (filter (fun p => negb (includes recent (id p))) photos)).
    { apply filter_In. split; [exact Hp | rewrite E; reflexivity]. }
    rewrite Hnil in Hin. exact Hin. }
  pose proof (NoDup_incl_length Hnd Hincl) as H.
  rewrite length_map in H. lia.
Qed.

Lemma selectCandidates_strict (photos : list PhotoData) (recent : list string) :
  NoDup (map id photos) -> (List.length recent < List.length photos)%nat ->
  selectCandidates photos recent <> []
  /\ forall p, In p (selectCandidates photos recent) ->
               In p photos /\ ~ In (id p) recent.
Proof.
  intros Hnd Hlen.
  pose proof (strictCandidates_nonempty photos recent Hnd Hlen) as Hne.
  unfold selectCandidates.
  apply length_pos_nonempty in Hne as Hpos. rewrite Hpos.
  split; [exact Hne |].
  intros p Hp. apply filter_In in Hp as [Hin Hb]. split; [exact Hin |].
  intros Hrec. apply includes_In in Hrec. rewrite Hrec in Hb. discriminate.
Qed.

(** *** The history queue *)

Lemma lastn_length {A : Type} (n : nat) (l : list A) :
  (List.length (lastn n l) <= n)%nat.
Proof. unfold lastn. rewrite length_skipn. lia. Qed.

Lemma skipn_S_tl {A : Type} (n : nat) (l : list A) :
  skipn (S n) l = tl (skipn n l).
Proof.
  revert l. induction n as [| n IH]; intros [| a l]; try reflexivity.
  change (skipn (S n) l = tl (skipn n l)). apply IH.
Qed.

Lemma pushHistory_lastn (all : list string) (s : string) :
  pushHistory (lastn MAX_HISTORY all) s = lastn MAX_HISTORY (all ++ [s]).
Proof.
  unfold pushHistory, lastn, MAX_HISTORY.
  rewrite length_app, length_skipn, length_app. simpl List.length.
  destruct (Nat.le_gt_cases 5 (List.length all)) as [Hge | Hlt].
  - replace (5 <? List.length all - (List.length all - 5) + 1)%nat with true
      by (symmetry; apply Nat.ltb_lt; lia).
    replace (List.length all + 1 - 5)%nat with (S (List.length all - 5)) by lia.
    rewrite skipn_S_tl, skipn_app.
    replace (List.length all - 5 - List.length all)%nat with 0%nat by lia.
    reflexivity.
  - replace (5 <? List.length all - (List.length all - 5) + 1)%nat with false
      by (symmetry; apply Nat.ltb_ge; lia).
    replace (List.length all - 5)%nat with 0%nat by lia.
    replace (List.length all + 1 - 5)%nat with 0%nat by lia.
    reflexivity.
Qed.

Lemma NoDup_tl {A : Type} (l : list A) : NoDup l -> NoDup (tl l).
Proof. intros H. destruct l; simpl; [exact H | inversion H; assumption]. Qed.

Lemma pushHistory_NoDup (recent : list string) (s : string) :
  NoDup recent -> ~ In s recent -> NoDup (pushHistory recent s).
Proof.
  intros Hnd Hs.
  assert (H : NoDup (recent ++ [s])).
  { apply NoDup_app; [exact Hnd | repeat constructor; intros [] |].
    intros a Ha [<- | []]. contradiction. }
  unfold pushHistory. destruct (MAX_HISTORY <? _)%nat; [apply NoDup_tl |]; exact H.
Qed.

(** *** POINT *)

(** A POINT outside FOCUS with more photos than history entries features a
    photo that is not in the history. *)
Lemma point_selects_fresh (st : State) (u : Q) :
  appState st <> FOCUS -> NoDup (map id (photos st)) ->
  (List.length (recentPhotos st) < List.length (photos st))%nat ->
  validDraw u ->
  exists p, In p (photos st) /\ ~ In (id p) (recentPhotos st)
            /\ handleGesture POINT u st
               = Some {| appState := FOCUS;
                         handRotation := None;
                         gestureStatus := POINT;
                         photos := photos st;
                         featuredPhotoId := Some (id p);
                         recentPhotos := pushHistory (recentPhotos st) (id p) |}.
Proof.
  intros Hs Hnd Hlen Hu.
  destruct (selectCandidates_strict _ _ Hnd Hlen) as [Hne Hall].
  destruct (index_randomIdx _ u Hu Hne) as [p [Hidx Hin]].
  destruct (Hall p Hin) as [Hp Hfresh].
  exists p. split; [exact Hp |]. split; [exact Hfresh |].
  unfold handleGesture.
  apply AppState_eqb_neq in Hs. rewrite Hs. simpl negb. cbv iota.
  replace (0 <? List.length (photos st))%nat with true
    by (symmetry; apply Nat.ltb_lt; lia).
  rewrite Hidx. reflexivity.
Qed.

Lemma pointRounds_cons (u : Q) (rest : list Q) (st focused : State) :
  handleGesture POINT u st = Some focused ->
  pointRounds (u :: rest) st
  = match pointRounds rest
            {| appState := CHAOS;
               handRotation := handRotation focused;
               gestureStatus := OPEN;
               photos := photos focused;
               featuredPhotoId := None;
               recentPhotos := recentPhotos focused |} with
    | None => None
    | Some (selections, final) => Some (featuredPhotoId focused :: selections, final)
    end.
Proof. intros E. cbn [pointRounds]. rewrite E. reflexivity. Qed.

Lemma pointRounds_history (draws : list Q) :
  forall (st : State) (all : list string),
    appState st <> FOCUS ->
    recentPhotos st = lastn MAX_HISTORY all ->
    NoDup (recentPhotos st) ->
    NoDup (map id (photos st)) ->
    (MAX_HISTORY < List.length (photos st))%nat ->
    Forall validDraw draws ->
    exists selections final,
      pointRounds draws st = Some (map Some selections, final)
      /\ List.length selections = List.length draws
      /\ recentPhotos final = lastn MAX_HISTORY (all ++ selections)
      /\ NoDup (recentPhotos final)
      /\ Forall (fun s => In s (map id (photos st))) selections.
Proof.
  induction draws as [| u rest IH]; intros st all Hs Hrec Hnd Hids Hlen Hdraws.
  - exists [], st. simpl. rewrite app_nil_r. repeat split; auto.
  - inversion Hdraws as [| ? ? Hu Hrest]; subst.
    assert (Hlt : (List.length (recentPhotos st) < List.length (photos st))%nat).
    { rewrite Hrec. pose proof (lastn_length MAX_HISTORY all). lia. }
    destruct (point_selects_fresh st u Hs Hids Hlt Hu) as [p [Hp [Hfresh E]]].
    rewrite (pointRounds_cons u rest st _ E).
    cbn [handRotation photos recentPhotos featuredPhotoId].
    set (released := {| appState := CHAOS; handRotation := None;
                        gestureStatus := OPEN; photos := photos st;
                        featuredPhotoId := None;
                        recentPhotos := pushHistory (recentPhotos st) (id p) |}).
    destruct (IH released (all ++ [id p])) as [sels [final [Er [Hl [Hh [Hn Hf]]]]]].
    + discriminate.
    + unfold released. cbn [recentPhotos]. rewrite Hrec. apply pushHistory_lastn.
    + unfold released. cbn [recentPhotos]. apply pushHistory_NoDup; assumption.
    + exact Hids.
    + exact Hlen.
    + exact Hrest.
    + rewrite Er. exists (id p :: sels), final.
      split; [reflexivity |]. split; [simpl; lia |].
      split; [rewrite Hh, <- app_assoc; reflexivity |].
      split; [exact Hn |].
      constructor; [apply in_map; exact Hp | exact Hf].
Qed.

(** C4, as the code has it: with more distinct photos than the history
    holds (six or more), any number of POINT selections in sequence from an
    empty history all succeed, the history is the last five selections, and
    no photo id occurs twice among them. *)
Theorem history_distinct_with_six_photos (st : State) (draws : list Q) :
  appState st <> FOCUS ->
  recentPhotos st = [] ->
  NoDup (map id (photos st)) ->
  (6 <= List.length (photos st))%nat ->
  Forall validDraw draws ->
  exists selections final,
    pointRounds draws st = Some (map Some selections, final)
    /\ List.length selections = List.length draws
    /\ recentPhotos final = lastn 5 selections
    /\ NoDup (lastn 5 selections).
Proof.
  intros Hs Hrec Hids Hlen Hdraws.
  destruct (pointRounds_history draws st [] Hs) as [sels [final [E [Hl [Hh [Hn _]]]]]];
    try assumption.
  - rewrite Hrec. constructor.
  - exists sels, final. simpl in Hh. unfold MAX_HISTORY in Hh.
    repeat split; try assumption. rewrite <- Hh. exact Hn.
Qed.

Lemma history_distinct_with_six_photos_witness :
  exists selections final,
    pointRounds [0; 0.5; 0.9; 0; 0.3; 0.7; 0.99]%Q
                (loaded ["a"; "b"; "c"; "d"; "e"; "f"]%string)
    = Some (map Some selections, final)
    /\ List.length selections = 7%nat
    /\ recentPhotos final = lastn 5 selections
    /\ NoDup (lastn 5 selections).
Proof.
  apply (history_distinct_with_six_photos
           (loaded ["a"; "b"; "c"; "d"; "e"; "f"]%string)
           [0; 0.5; 0.9; 0; 0.3; 0.7; 0.99]%Q).
  - discriminate.
  - reflexivity.
  - simpl. repeat constructor; simpl; intuition discriminate.
  - simpl. lia.
  - repeat constructor; discriminate.
Defined.

(** C4, as stated, fails: with two distinct photos the fallback only avoids
    the photo featured last, so six selections alternate and the last five
    repeat both ids. *)
Lemma history_repeats_with_two_photos_counterexample :
  let st := loaded ["a"; "b"]%string in
  let draws := [0; 0; 0; 0; 0; 0]%Q in
  NoDup (map id (photos st))
  /\ List.length (photos st) = 2%nat
  /\ Forall validDraw draws
  /\ exists final,
       pointRounds draws st
       = Some (map Some ["a"; "b"; "a"; "b"; "a"; "b"]%string, final)
       /\ recentPhotos final = ["b"; "a"; "b"; "a"; "b"]%string
       /\ ~ NoDup (lastn 5 ["a"; "b"; "a"; "b"; "a"; "b"]%string).
Proof.
  intros st draws.
  split; [simpl; repeat constructor; simpl; intuition discriminate |].
  split; [reflexivity |].
  split; [repeat constructor; discriminate |].
  eexists. split; [vm_compute; reflexivity |].
  split; [reflexivity |].
  intros H. inversion H as [| ? ? Hnotin _]; subst.
  apply Hnotin. simpl. auto.
Qed.

(** Six photos are needed: with five, the sixth selection falls back to
    the photos other than the last one and may repeat one still in the
    history. *)
Example history_repeats_with_five_photos :
  exists final,
    pointRounds [0; 0; 0; 0; 0; 0.3]%Q (loaded ["a"; "b"; "c"; "d"; "e"]%string)
    = Some (map Some ["a"; "b"; "c"; "d"; "e"; "b"]%string, final)
    /\ recentPhotos final = ["b"; "c"; "d"; "e"; "b"]%string.
Proof. eexists. split; [vm_compute; reflexivity | reflexivity]. Qed.

(** *** FOCUS and the featured photo *)

(** OPEN and FIST leave FOCUS and clear the featured photo. *)
Lemma open_fist_clear_featured (g : Gesture) (u : Q) (st : State) :
  g = OPEN \/ g = FIST ->
  exists st', handleGesture g u st = Some st'
              /\ featuredPhotoId st' = None
              /\ appState st' = (if Gesture_eqb g OPEN then CHAOS else FORMED).
Proof. intros [-> | ->]; eexists; simpl; auto. Qed.

(** Gestures keep "FOCUS has a featured photo" as long as there are
    photos. *)
Lemma focus_has_featured_with_photos (g : Gesture) (u : Q) (st st' : State) :
  photos st <> [] ->
  (appState st = FOCUS -> featuredPhotoId st <> None) ->
  handleGesture g u st = Some st' ->
  appState st' = FOCUS -> featuredPhotoId st' <> None.
Proof.
  intros Hph Hinv E. destruct g; simpl in E.
  - destruct (AppState_eqb (appState st) FOCUS) eqn:F; simpl in E.
    + injection E as <-. simpl. intros _. apply Hinv. apply AppState_eqb_eq. exact F.
    + apply length_pos_nonempty in Hph. rewrite Hph in E.
      destruct (index _ _) as [p |]; [| discriminate].
      injection E as <-. simpl. discriminate.
  - injection E as <-. simpl. discriminate.
  - injection E as <-. simpl. discriminate.
  - injection E as <-. simpl. exact Hinv.
Qed.

(** C2 at its failing input: a POINT before any photo exists takes the
    initial state to FOCUS with no featured photo, so a reachable state is
    FOCUS without a featured-photo identifier. *)
Theorem focus_without_featured_reachable :
  exists st, reachable st /\ appState st = FOCUS /\ featuredPhotoId st = None.
Proof.
  exists {| appState := FOCUS; handRotation := None; gestureStatus := POINT;
            photos := []; featuredPhotoId := None; recentPhotos := [] |}.
  split; [| split; reflexivity].
  apply (reachable_step (EGesture POINT 0) initialState).
  - apply reachable_initial.
  - split; [discriminate | reflexivity].
  - reflexivity.
Qed.

(** C3 at its failing input: with no photos a POINT selects nothing and
    does not throw, whatever the draw, yet it sets the state to FOCUS. *)
Theorem point_without_photos_enters_focus (u : Q) :
  handleGesture POINT u initialState
  = Some {| appState := FOCUS; handRotation := None; gestureStatus := POINT;
            photos := []; featuredPhotoId := None; recentPhotos := [] |}.
Proof. reflexivity. Qed.

(** *** Hand moves *)

Lemma handMoves_focus (samples : list (Q * Q)) (st : State) :
  appState st = FOCUS -> handMoves samples st = st.
Proof.
  intros Hf. unfold handMoves.
  induction samples as [| xy rest IH]; simpl; [reflexivity |].
  unfold handleHandMove at 2. rewrite Hf. simpl. exact IH.
Qed.

(** In FOCUS any run of hand-position samples leaves the state, and so the
    hand-rotation override, as it is; a POINT that features a photo clears
    the override on entering FOCUS, so the override stays cleared through
    every later sample. *)
Lemma hand_moves_ignored_after_selection
    (st0 st : State) (u : Q) (samples : list (Q * Q)) :
  (appState st = FOCUS ->
   handMoves samples st = st
   /\ handRotation (handMoves samples st) = handRotation st)
  /\ (appState st0 <> FOCUS -> photos st0 <> [] ->
      handleGesture POINT u st0 = Some st ->
      appState st = FOCUS /\ handRotation st = None
      /\ featuredPhotoId st <> None
      /\ handRotation (handMoves samples st) = None
      /\ appState (handMoves samples st) = FOCUS).
Proof.
  split.
  - intros Hf. rewrite (handMoves_focus samples st Hf). split; reflexivity.
  - intros Hs Hph E. unfold handleGesture in E.
    apply AppState_eqb_neq in Hs. rewrite Hs in E. simpl negb in E. cbv iota in E.
    apply length_pos_nonempty in Hph. rewrite Hph in E.
    destruct (index _ _) as [p |]; [| discriminate].
    injection E as <-.
    rewrite handMoves_focus by reflexivity. simpl.
    repeat split; try reflexivity. discriminate.
Qed.

Example hand_moves_ignored_sample :
  let st0 := handleHandMove (0.3, 0.6)%Q (loaded ["a"]%string) in
  exists st, handleGesture POINT 0 st0 = Some st
             /\ handRotation st0 = Some (0.3, 0.6)%Q
             /\ handRotation (handMoves [(0.1, 0.2); (0.9, 0.9)]%Q st) = None.
Proof.
  intros st0. eexists. split; [reflexivity |]. split; [reflexivity |].
  refine (proj1 (proj2 (proj2 (proj2
    (proj2 (hand_moves_ignored_after_selection st0 _ 0 [(0.1, 0.2); (0.9, 0.9)]%Q)
       _ _ eq_refl))))).
  - discriminate.
  - discriminate.
Qed.

(** C9 at its failing input: with no photos, a hand sample taken in CHAOS
    sets the override, the POINT that follows enters FOCUS without clearing
    it, and since hand moves are ignored in FOCUS the override keeps that
    sample for as long as the state is FOCUS. *)
Theorem override_kept_in_focus_without_photos :
  let st0 := handleHandMove (0.3, 0.6)%Q initialState in
  exists st,
    handleGesture POINT 0 st0 = Some st
    /\ appState st = FOCUS
    /\ handRotation st = Some (0.3, 0.6)%Q
    /\ forall samples,
         appState (handMoves samples st) = FOCUS
         /\ handRotation (handMoves samples st) = Some (0.3, 0.6)%Q.
Proof.
  intros st0. eexists. split; [reflexivity |].
  split; [reflexivity |]. split; [reflexivity |].
  intros samples. rewrite handMoves_focus by reflexivity.
  split; reflexivity.
Qed.

End AppProps.

(** * Further properties *)

(** ** Transition engine *)

Section ShaderProps.
Import Transition Shaders.
Local Open Scope Q_scope.

Lemma useFrame_distance (f : Family) (s : AppState) (delta p : Q) :
  useFrame f true s delta p - targetProgress s
  == (1 - delta * rate f) * (p - targetProgress s).
Proof. unfold useFrame, lerp. ring. Qed.

(** X1: after any run of frames, spikes included, the signed distance of
    the progress to its target is the initial distance times the product of
    the factors [1 - delta * rate]; so a progress that is on its target
    stays there whatever the timesteps. *)
Theorem frames_closed_form (f : Family) (s : AppState) (deltas : list Q) (p : Q) :
  frames f s deltas p - targetProgress s
  == remaining f deltas * (p - targetProgress s)
  /\ (p == targetProgress s -> frames f s deltas p == targetProgress s).
Proof.
  assert (H : forall q, frames f s deltas q - targetProgress s
                        == remaining f deltas * (q - targetProgress s)).
  { induction deltas as [| d rest IH]; intros q; cbn [frames remaining].
    - ring.
    - rewrite IH, useFrame_distance. ring. }
  split; [apply H |].
  intros E. specialize (H p).
  assert (Z0 : p - targetProgress s == 0) by (rewrite E; ring).
  rewrite Z0 in H. lra.
Qed.

Lemma frames_closed_form_witness :
  frames Foliage FORMED [0.5; 5; 100] 1 == 1.
Proof.
  apply (frames_closed_form Foliage FORMED [0.5; 5; 100] 1). reflexivity.
Defined.

Lemma remaining_pos (f : Family) (deltas : list Q) :
  Forall (fun delta => 0 < delta * rate f /\ delta * rate f < 1) deltas ->
  0 < remaining f deltas.
Proof.
  induction 1 as [| d rest [Hd0 Hd1] _ IH]; simpl; [reflexivity |].
  apply Qmult_lt_0_compat; [lra | exact IH].
Qed.

(** X2: frames whose factor [delta * rate] lies strictly between 0 and 1
    never put the progress exactly on its target: a progress that is off
    target stays off target, strictly closer to it and on the same side. *)
Theorem frames_never_snap (f : Family) (s : AppState) (deltas : list Q) (p : Q) :
  Forall (fun delta => 0 < delta * rate f /\ delta * rate f < 1) deltas ->
  ~ p == targetProgress s ->
  ~ frames f s deltas p == targetProgress s
  /\ (p < targetProgress s -> frames f s deltas p < targetProgress s)
  /\ (targetProgress s < p -> targetProgress s < frames f s deltas p).
Proof.
  intros Hall Hne.
  pose proof (remaining_pos f deltas Hall) as Hr.
  destruct (frames_closed_form f s deltas p) as [H _].
  assert (lt : p < targetProgress s -> frames f s deltas p < targetProgress s).
  { intros Hlt.
    assert (remaining f deltas * (p - targetProgress s) < 0) by nra. lra. }
  assert (gt : targetProgress s < p -> targetProgress s < frames f s deltas p).
  { intros Hgt.
    assert (0 < remaining f deltas * (p - targetProgress s)) by nra. lra. }
  split; [| split; assumption].
  intros E. destruct (Q_dec p (targetProgress s)) as [[Hlt | Hgt] | Heq].
  - specialize (lt Hlt). lra.
  - specialize (gt Hgt). lra.
  - contradiction.
Qed.

Lemma frames_never_snap_witness :
  ~ frames OrbitingParticles FORMED [0.016; 0.016; 1] 0 == 1.
Proof.
  apply (frames_never_snap OrbitingParticles FORMED [0.016; 0.016; 1] 0).
  - repeat constructor.
  - discriminate.
Defined.

Lemma square_nonneg (a : Q) : 0 <= a * a.
Proof. nra. Qed.

Lemma cube_le (a b : Q) : a <= b -> a * a * a <= b * b * b.
Proof.
  intros H.
  assert (S : 0 <= a * a + a * b + b * b).
  { pose proof (square_nonneg (a + b)).
    pose proof (square_nonneg a). pose proof (square_nonneg b). lra. }
  assert (E : b * b * b - a * a * a == (b - a) * (a * a + a * b + b * b)) by ring.
  assert (0 <= (b - a) * (a * a + a * b + b * b)).
  { apply Qmult_le_0_compat; lra. }
  lra.
Qed.

Lemma ease_low (t : Q) : t < 0.5 -> ease t == 4 * (t * t * t).
Proof.
  intros H. unfold ease. destruct (Qlt_le_dec t 0.5); [simpl; ring | lra].
Qed.

Lemma ease_high (t : Q) :
  0.5 <= t -> ease t == 1 - 0.5 * ((2 - 2 * t) * (2 - 2 * t) * (2 - 2 * t)).
Proof.
  intros H. unfold ease. destruct (Qlt_le_dec t 0.5); [lra | simpl; field].
Qed.

Lemma ease_mono (t1 t2 : Q) : t1 <= t2 -> ease t1 <= ease t2.
Proof.
  intros H.
  destruct (Qlt_le_dec t1 0.5) as [L1 | H1]; destruct (Qlt_le_dec t2 0.5) as [L2 | H2].
  - rewrite (ease_low t1 L1), (ease_low t2 L2). pose proof (cube_le t1 t2 H). lra.
  - rewrite (ease_low t1 L1), (ease_high t2 H2).
    assert (A : t1 * t1 * t1 <= 0.5 * 0.5 * 0.5) by (apply cube_le; lra).
    assert (B : (2 - 2 * t2) * (2 - 2 * t2) * (2 - 2 * t2) <= 1 * 1 * 1)
      by (apply cube_le; lra).
    lra.
  - exfalso. lra.
  - rewrite (ease_high t1 H1), (ease_high t2 H2).
    assert (B : (2 - 2 * t2) * (2 - 2 * t2) * (2 - 2 * t2)
                <= (2 - 2 * t1) * (2 - 2 * t1) * (2 - 2 * t1))
      by (apply cube_le; lra).
    lra.
Qed.

Lemma ease_in_unit (t : Q) : 0 <= t -> t <= 1 -> 0 <= ease t /\ ease t <= 1.
Proof.
  intros H0 H1.
  pose proof (ease_mono 0 t H0) as A. pose proof (ease_mono t 1 H1) as B.
  change (ease 0) with (0 # 1) in A.
  assert (E1 : ease 1 == 1) by reflexivity. rewrite E1 in B.
  split; assumption.
Qed.

(** X3: the ease is symmetric about one half, [ease (1 - t) = 1 - ease t],
    never decreases, and maps [[0, 1]] into [[0, 1]]. *)
Theorem ease_symmetric_monotone (t1 t2 : Q) :
  ease (1 - t1) == 1 - ease t1
  /\ (t1 <= t2 -> ease t1 <= ease t2)
  /\ (0 <= t1 -> t1 <= 1 -> 0 <= ease t1 /\ ease t1 <= 1).
Proof.
  split; [| split].
  - destruct (Qlt_le_dec t1 0.5) as [L | H].
    + rewrite (ease_low t1 L), (ease_high (1 - t1)) by lra. field.
    + destruct (Qlt_le_dec (1 - t1) 0.5) as [L' | H'].
      * rewrite (ease_low _ L'), (ease_high t1 H). field.
      * assert (E : t1 == 0.5) by lra.
        rewrite (ease_high t1 H), (ease_high _ H'). rewrite E. reflexivity.
  - apply ease_mono.
  - apply ease_in_unit.
Qed.

Lemma ease_symmetric_monotone_witness :
  ease 0.25 <= ease 0.75 /\ 0 <= ease 0.25 /\ ease 0.25 <= 1.
Proof.
  destruct (ease_symmetric_monotone 0.25 0.75) as [_ [M R]].
  split; [apply M; discriminate | apply R; discriminate].
Defined.

Lemma mix1_between (x y a : Q) : 0 <= a -> a <= 1 -> between x y (mix1 x y a).
Proof.
  intros H0 H1. unfold between, mix1.
  destruct (Qlt_le_dec x y) as [L | G].
  - left. split; nra.
  - right. split; nra.
Qed.

(** X4: while the progress is in [[0, 1]], each coordinate of the blended
    position lies between the particle's chaos and target coordinates, and
    the foliage opacity lies in [[0.8, 1]]. *)
Theorem blend_within_segment (aChaosPos aTargetPos : vec3) (uProgress : Q) :
  0 <= uProgress -> uProgress <= 1 ->
  let pos := blend aChaosPos aTargetPos uProgress in
  between (vx aChaosPos) (vx aTargetPos) (vx pos)
  /\ between (vy aChaosPos) (vy aTargetPos) (vy pos)
  /\ between (vz aChaosPos) (vz aTargetPos) (vz pos)
  /\ 0.8 <= foliageAlpha uProgress /\ foliageAlpha uProgress <= 1.
Proof.
  intros H0 H1 pos.
  destruct (ease_in_unit uProgress H0 H1) as [E0 E1].
  unfold pos, blend, mix, foliageAlpha; cbn [vx vy vz].
  repeat split; try (apply mix1_between; assumption); lra.
Qed.

Lemma blend_within_segment_witness :
  between 3 1 (vx (blend (Vec3 3 (-7) 2) (Vec3 1 5 0) 0.3))
  /\ 0.8 <= foliageAlpha 0.3.
Proof.
  destruct (blend_within_segment (Vec3 3 (-7) 2) (Vec3 1 5 0) 0.3)
    as [A [_ [_ [B _]]]]; try discriminate.
  split; [exact A | exact B].
Defined.

Lemma Qfloor_unique (x : Q) (z : Z) :
  inject_Z z <= x -> x < inject_Z (z + 1) -> Qfloor x = z.
Proof.
  intros Hlo Hhi.
  pose proof (Qfloor_le x) as Fl. pose proof (Qlt_floor x) as Fh.
  assert (A : (z < Qfloor x + 1)%Z).
  { rewrite Zlt_Qlt. apply Qle_lt_trans with x; assumption. }
  assert (B : (Qfloor x < z + 1)%Z).
  { rewrite Zlt_Qlt. apply Qle_lt_trans with x; assumption. }
  lia.
Qed.

Lemma Qfloor_pred (x : Q) : Qfloor (x - 1) = (Qfloor x - 1)%Z.
Proof.
  pose proof (Qfloor_le x) as Fl. pose proof (Qlt_floor x) as Fh.
  rewrite inject_Z_plus in Fh.
  apply Qfloor_unique.
  - replace (Qfloor x - 1)%Z with (Qfloor x + -1)%Z by lia.
    rewrite inject_Z_plus. change (inject_Z (-1)) with (-1 # 1). lra.
  - replace (Qfloor x - 1 + 1)%Z with (Qfloor x) by lia.
    change (inject_Z 1) with 1 in Fh. lra.
Qed.

Lemma glsl_mod_range (x y : Q) : 0 < y -> 0 <= glsl_mod x y /\ glsl_mod x y < y.
Proof.
  intros Hy. unfold glsl_mod.
  pose proof (Qfloor_le (x / y)) as Fl. pose proof (Qlt_floor (x / y)) as Fh.
  rewrite inject_Z_plus in Fh. change (inject_Z 1) with 1 in Fh.
  assert (E : x == y * (x / y)) by (field; lra).
  set (q := x / y) in *. set (fl := inject_Z (Qfloor q)) in *.
  split.
  - assert (0 <= y * (q - fl)) by (apply Qmult_le_0_compat; lra). lra.
  - assert (0 < y * (fl + 1 - q)) by (apply Qmult_lt_0_compat; lra). lra.
Qed.

Lemma glsl_mod_period (x x' y : Q) :
  0 < y -> x' == x - y -> glsl_mod x' y == glsl_mod x y.
Proof.
  intros Hy E. unfold glsl_mod.
  assert (F : Qfloor (x' / y) = (Qfloor (x / y) - 1)%Z).
  { rewrite <- Qfloor_pred. apply Qfloor_comp. rewrite E. field. lra. }
  rewrite F, E.
  replace (Qfloor (x / y) - 1)%Z with (Qfloor (x / y) + -1)%Z by lia.
  rewrite inject_Z_plus. change (inject_Z (-1)) with (-1 # 1). ring.
Qed.

(** X5: once the progress exceeds 0.01, the height of a snow particle
    before the blend is always within [[-20, 20)], whatever the time, the
    speed and the seeded height; and it repeats with period
    [40 / (3 * aSpeed)]: the snowfall loops. *)
Theorem snow_height_wraps (aTargetPosY uTime aSpeed uProgress : Q) :
  0.01 < uProgress ->
  (-20 <= snowCurrentY aTargetPosY uTime aSpeed uProgress
   /\ snowCurrentY aTargetPosY uTime aSpeed uProgress < 20)
  /\ (~ aSpeed == 0 ->
      snowCurrentY aTargetPosY (uTime + 40 / (aSpeed * 3)) aSpeed uProgress
      == snowCurrentY aTargetPosY uTime aSpeed uProgress).
Proof.
  intros Hp. unfold snowCurrentY.
  destruct (Qlt_le_dec 0.01 uProgress) as [_ | Hle]; [| exfalso; lra].
  cbv zeta. split.
  - destruct (glsl_mod_range (aTargetPosY - uTime * (aSpeed * 3) + 20) 40)
      as [A B]; [reflexivity |].
    split; lra.
  - intros Hs.
    rewrite (glsl_mod_period (aTargetPosY - uTime * (aSpeed * 3) + 20)
               (aTargetPosY - (uTime + 40 / (aSpeed * 3)) * (aSpeed * 3) + 20) 40).
    + reflexivity.
    + reflexivity.
    + field. exact Hs.
Qed.

Lemma snow_height_wraps_witness :
  -20 <= snowCurrentY 7 1000 1.5 0.8 /\ snowCurrentY 7 1000 1.5 0.8 < 20.
Proof.
  apply (snow_height_wraps 7 1000 1.5 0.8). reflexivity.
Defined.

End ShaderProps.

(** ** Rotation and physics controller *)

Section RotationProps.
Import Rotation.
Local Open Scope Q_scope.

Variable PI : Q.

Lemma all_states_idle (appState : AppState) :
  (AppState_eqb appState FORMED || AppState_eqb appState CHAOS
   || AppState_eqb appState FOCUS)%bool = true.
Proof. destruct appState; reflexivity. Qed.

Lemma frames_cons (appState : AppState) (h : option (Q * Q)) (d : Q)
    (rest : list Q) (rig : Rig) :
  frames PI appState h (d :: rest) rig
  = frames PI appState h rest (useFrame PI appState h d rig).
Proof. reflexivity. Qed.

(** X6: without hand tracking every frame multiplies the angular velocity
    by 0.95, whatever the timestep, the application state and the drag
    state: after [n] frames it is the initial velocity times [0.95 ^ n]. *)
Theorem angular_velocity_decays (appState : AppState) (deltas : list Q) (rig : Rig) :
  angularVelocity (frames PI appState None deltas rig)
  == angularVelocity rig * 0.95 ^ Z.of_nat (List.length deltas).
Proof.
  revert rig. induction deltas as [| d rest IH]; intros rig.
  - simpl. ring.
  - rewrite frames_cons, IH. cbn [useFrame angularVelocity List.length].
    rewrite Nat2Z.inj_succ. unfold Z.succ.
    rewrite Qpower_plus by discriminate.
    change (0.95 ^ 1) with 0.95. ring.
Qed.

Lemma drift_frames (appState : AppState) (deltas : list Q) :
  forall rig,
    angularVelocity rig == 0 -> isDragging rig = false ->
    currentRotationY rig == rotationY rig ->
    rotationY (frames PI appState None deltas rig)
    == rotationY rig + 0.1 * Qsum deltas
    /\ angularVelocity (frames PI appState None deltas rig) == 0.
Proof.
  induction deltas as [| d rest IH]; intros rig Hv Hd Hc.
  - simpl. split; [ring | exact Hv].
  - rewrite frames_cons.
    assert (Hidle : (if Qlt_le_dec (Qabs (angularVelocity rig * 0.95)) 0.05
                     then true else false) = true).
    { destruct (Qlt_le_dec (Qabs (angularVelocity rig * 0.95)) 0.05) as [_ | Hge];
        [reflexivity |].
      exfalso. apply (Qle_not_lt _ _ Hge). apply Qabs_Qlt_condition.
      rewrite Hv. split; reflexivity. }
    destruct (IH (useFrame PI appState None d rig)) as [A B].
    + cbn [useFrame angularVelocity]. rewrite Hv. ring.
    + cbn [useFrame isDragging]. exact Hd.
    + cbn [useFrame currentRotationY rotationY]. reflexivity.
    + split; [| exact B].
      rewrite A. cbn [useFrame rotationY Qsum fold_right].
      rewrite all_states_idle, Hd, Hidle. cbn [negb andb].
      rewrite Hv, Hc. unfold Qsum. ring.
Qed.

(** X7: a frame under hand tracking zeroes the angular velocity, so when
    tracking stops and nothing is dragged the scene only drifts: after any
    further frames the yaw is the tracked yaw plus 0.1 times the elapsed
    time, whatever momentum had been built up before. *)
Theorem hand_mode_cancels_momentum
    (appState appState' : AppState) (hand : Q * Q) (delta : Q)
    (deltas : list Q) (rig : Rig) :
  isDragging rig = false ->
  let tracked := useFrame PI appState (Some hand) delta rig in
  angularVelocity tracked = 0
  /\ rotationY (frames PI appState' None deltas tracked)
     == rotationY tracked + 0.1 * Qsum deltas
  /\ angularVelocity (frames PI appState' None deltas tracked) == 0.
Proof.
  intros Hd tracked. destruct hand as [hx hy].
  split; [reflexivity |].
  apply drift_frames; unfold tracked; cbn [useFrame]; try reflexivity.
  exact Hd.
Qed.

Lemma last_cons_indep {A : Type} (a : A) (l : list A) (d d' : A) :
  last (a :: l) d = last (a :: l) d'.
Proof.
  revert a. induction l as [| b r IH]; intros a; [reflexivity |].
  change (last (b :: r) d = last (b :: r) d'). apply IH.
Qed.

Lemma last_cons_default {A : Type} (a : A) (l : list A) (d : A) :
  last (a :: l) d = last l a.
Proof.
  destruct l as [| b r]; [reflexivity |].
  change (last (b :: r) d = last (b :: r) a). apply last_cons_indep.
Qed.

Lemma drag_dragging (width : Q) (moves : list Q) :
  forall rig, isDragging rig = true ->
    isDragging (drag width moves rig) = true
    /\ lastPointerX (drag width moves rig) = last moves (lastPointerX rig)
    /\ (0 < width ->
        angularVelocity (drag width moves rig)
        == angularVelocity rig
           + ((last moves (lastPointerX rig) - lastPointerX rig) / width) * 15)
    /\ (width <= 0 -> angularVelocity (drag width moves rig) = angularVelocity rig).
Proof.
  induction moves as [| m rest IH]; intros rig Hd.
  - simpl. repeat split; auto. intros Hw. field. lra.
  - assert (E : drag width (m :: rest) rig
                = drag width rest (handlePointerMove width m rig)) by reflexivity.
    rewrite E.
    assert (Hd' : isDragging (handlePointerMove width m rig) = true).
    { unfold handlePointerMove. rewrite Hd. reflexivity. }
    destruct (IH _ Hd') as [A [B [C D]]].
    assert (L : lastPointerX (handlePointerMove width m rig) = m).
    { unfold handlePointerMove. rewrite Hd. reflexivity. }
    assert (Lst : last (m :: rest) (lastPointerX rig) = last rest m)
      by apply last_cons_default.
    rewrite L in B, C. rewrite Lst.
    split; [exact A |]. split; [exact B |]. split.
    + intros Hw. rewrite (C Hw).
      unfold handlePointerMove. rewrite Hd. cbn [negb angularVelocity].
      destruct (Qlt_le_dec 0 width) as [_ | Hle]; [| exfalso; lra].
      field. lra.
    + intros Hw. rewrite (D Hw).
      unfold handlePointerMove. rewrite Hd. cbn [negb angularVelocity].
      destruct (Qlt_le_dec 0 width) as [Hlt | _]; [exfalso; lra | reflexivity].
Qed.

(** X8: a drag only counts its end points: after a press at [x0] and any
    run of pointer moves over a viewport of positive width, the angular
    velocity has grown by [((x - x0) / width) * 15] with [x] the last
    position; over a viewport of width zero or less it has not changed; and
    pointer moves without a press change nothing. *)
Theorem drag_adds_net_displacement (width x0 : Q) (moves : list Q) (rig : Rig) :
  (0 < width ->
   angularVelocity (drag width moves (handlePointerDown x0 rig))
   == angularVelocity rig + ((last moves x0 - x0) / width) * 15)
  /\ (width <= 0 ->
      angularVelocity (drag width moves (handlePointerDown x0 rig))
      = angularVelocity rig)
  /\ (isDragging rig = false -> drag width moves rig = rig).
Proof.
  destruct (drag_dragging width moves (handlePointerDown x0 rig) eq_refl)
    as [_ [_ [C D]]].
  split; [exact C |]. split; [exact D |].
  intros Hd. clear C D. unfold drag.
  induction moves as [| m rest IH]; [reflexivity |].
  simpl. unfold handlePointerMove at 2. rewrite Hd. exact IH.
Qed.

End RotationProps.

Lemma hand_mode_cancels_momentum_witness :
  let rig := Rotation.handlePointerUp
               (Rotation.drag 800 [300; 500]
                  (Rotation.handlePointerDown 100 Rotation.initialRig)) in
  (Rotation.angularVelocity rig == 7.5)%Q
  /\ (Rotation.angularVelocity
        (Rotation.frames 3 CHAOS None [0.016; 0.016]
           (Rotation.useFrame 3 CHAOS (Some (0.5, 0.5)%Q) 0.016 rig)) == 0)%Q.
Proof.
  intros rig. split; [reflexivity |].
  apply (hand_mode_cancels_momentum 3 CHAOS CHAOS (0.5, 0.5)%Q 0.016 [0.016; 0.016]%Q rig).
  reflexivity.
Defined.

Lemma drag_adds_net_displacement_witness :
  (Rotation.angularVelocity
     (Rotation.drag 800 [300; 250; 500]
        (Rotation.handlePointerDown 100 Rotation.initialRig))
   == 0 + ((500 - 100) / 800) * 15)%Q.
Proof.
  apply (drag_adds_net_displacement 800 100 [300; 250; 500]%Q Rotation.initialRig).
  reflexivity.
Defined.

(** ** Photo placement and the photo collection *)

Section CollectionProps.
Import Placement App AppRuns.
Local Open Scope Q_scope.

Lemma mapi_from_sources (n : nat) (l : list SourcePhoto) :
  forall k,
    let made := mapi_from (fun photo i =>
                             {| id := src_id photo; url := src_url photo;
                                aspectRatio := src_aspectRatio photo;
                                ribbonT := curveParameter n i |}) k l in
    map toSource made = l /\ map id made = map src_id l.
Proof.
  induction l as [| a rest IH]; intros k; simpl; [split; reflexivity |].
  destruct (IH (S k)) as [A B]. rewrite A, B.
  destruct a; split; reflexivity.
Qed.

(** X9: [generatePhotoPositions] keeps the photos, their order and their
    data: reading the source records back from its result gives the input,
    and the ids come out in the input order. *)
Theorem generatePhotoPositions_roundtrip (sourcePhotos : list SourcePhoto) :
  map toSource (generatePhotoPositions sourcePhotos) = sourcePhotos
  /\ map id (generatePhotoPositions sourcePhotos) = map src_id sourcePhotos
  /\ List.length (generatePhotoPositions sourcePhotos) = List.length sourcePhotos.
Proof.
  destruct (mapi_from_sources (List.length sourcePhotos) sourcePhotos 0) as [A B].
  split; [exact A |]. split; [exact B |].
  rewrite <- (length_map id), <- (length_map src_id). f_equal. exact B.
Qed.

Lemma generated_sources (l : list SourcePhoto) :
  map toSource (generatePhotoPositions l) = l.
Proof. apply (mapi_from_sources (List.length l) l 0). Qed.

Lemma generated_ids (l : list SourcePhoto) :
  map id (generatePhotoPositions l) = map src_id l.
Proof. apply (mapi_from_sources (List.length l) l 0). Qed.

Lemma generated_length (l : list SourcePhoto) :
  List.length (generatePhotoPositions l) = List.length l.
Proof.
  rewrite <- (length_map id), <- (length_map src_id). f_equal. apply generated_ids.
Qed.

Lemma ofNat_lt (i j : nat) : (i < j)%nat -> ofNat i < ofNat j.
Proof. intros H. unfold ofNat. rewrite <- Zlt_Qlt. lia. Qed.

Lemma ofNat_le (i j : nat) : (i <= j)%nat -> ofNat i <= ofNat j.
Proof. intros H. unfold ofNat. rewrite <- Zle_Qle. lia. Qed.

Lemma curveParameter_order (N i j : nat) :
  (1 < N)%nat -> (i < j)%nat -> (j < N)%nat ->
  0.15 <= curveParameter N i
  /\ curveParameter N i < curveParameter N j
  /\ curveParameter N j <= 0.85.
Proof.
  intros HN Hij HjN. unfold curveParameter.
  apply Nat.ltb_lt in HN as HN'. rewrite HN'.
  assert (Hm : 0 < ofNat (N - 1)) by (apply (ofNat_lt 0); lia).
  assert (Hi0 : 0 <= ofNat i) by (apply (ofNat_le 0); lia).
  assert (Hlt : ofNat i < ofNat j) by (apply ofNat_lt; exact Hij).
  assert (Hjm : ofNat j <= ofNat (N - 1)) by (apply ofNat_le; lia).
  assert (Hw : 0 < / ofNat (N - 1)) by (apply Qinv_lt_0_compat; exact Hm).
  assert (One : ofNat (N - 1) * / ofNat (N - 1) == 1) by (apply Qmult_inv_r; lra).
  unfold Qdiv.
  set (w := / ofNat (N - 1)) in *.
  assert (A : 0 <= ofNat i * w) by (apply Qmult_le_0_compat; lra).
  assert (B : ofNat i * w < ofNat j * w) by (apply Qmult_lt_compat_r; assumption).
  assert (C : ofNat j * w <= ofNat (N - 1) * w)
    by (apply Qmult_le_compat_r; [assumption | lra]).
  repeat split; lra.
Qed.

(** X10: among two or more photos the curve parameters increase strictly
    with the index and stay within [[0.15, 0.85]]: the photos hang along
    the ribbon in collection order, inset from both ends. *)
Theorem photos_ordered_and_inset
    (sourcePhotos : list SourcePhoto) (i j : nat) (p q : PhotoData) :
  (i < j)%nat ->
  nth_error (generatePhotoPositions sourcePhotos) i = Some p ->
  nth_error (generatePhotoPositions sourcePhotos) j = Some q ->
  0.15 <= ribbonT p /\ ribbonT p < ribbonT q /\ ribbonT q <= 0.85.
Proof.
  intros Hij Hp Hq.
  assert (HjN : (j < List.length sourcePhotos)%nat).
  { rewrite <- generated_length. apply nth_error_Some. rewrite Hq. discriminate. }
  destruct (generatePhotoPositions_nth _ _ _ Hp) as [-> _].
  destruct (generatePhotoPositions_nth _ _ _ Hq) as [-> _].
  apply curveParameter_order; [lia | exact Hij | exact HjN].
Qed.

Lemma photos_ordered_and_inset_witness :
  exists p q,
    nth_error (generatePhotoPositions (map samplePhoto ["a"; "b"; "c"]%string)) 0 = Some p
    /\ nth_error (generatePhotoPositions (map samplePhoto ["a"; "b"; "c"]%string)) 2 = Some q
    /\ ribbonT p < ribbonT q.
Proof.
  eexists. eexists. split; [reflexivity |]. split; [reflexivity |].
  refine (proj1 (proj2 (photos_ordered_and_inset
                          (map samplePhoto ["a"; "b"; "c"]%string) 0 2 _ _ _ eq_refl eq_refl))).
  lia.
Defined.

(** *** Every reachable photo list is freshly placed *)

Lemma reachable_photos_generated (st : State) :
  reachable st ->
  photos st = generatePhotoPositions (map toSource (photos st)).
Proof.
  induction 1 as [| e st st' Hr IH Hv Hs]; [reflexivity |].
  destruct e as [g u | xy | | files | removed | saved]; simpl in Hs.
  - assert (Hph : photos st' = photos st).
    { destruct g; simpl in Hs.
      - destruct (AppState_eqb (appState st) FOCUS); simpl in Hs.
        + injection Hs as <-. reflexivity.
        + destruct (0 <? List.length (photos st))%nat.
          * destruct (index _ _); [| discriminate]. injection Hs as <-. reflexivity.
          * injection Hs as <-. reflexivity.
      - injection Hs as <-. reflexivity.
      - injection Hs as <-. reflexivity.
      - injection Hs as <-. reflexivity. }
    rewrite Hph. exact IH.
  - injection Hs as <-. unfold handleHandMove.
    destruct (negb _); simpl; exact IH.
  - injection Hs as <-. simpl. exact IH.
  - injection Hs as <-. unfold handlePhotoUpload.
    destruct (0 <? List.length files)%nat; simpl; [| exact IH].
    rewrite generated_sources. reflexivity.
  - injection Hs as <-. simpl. rewrite generated_sources. reflexivity.
  - injection Hs as <-. unfold loadPhotos.
    destruct (0 <? List.length saved)%nat; simpl; [| exact IH].
    rewrite generated_sources. reflexivity.
Qed.

(** X11: in every reachable state the photos are placed for the current
    count: the photo at index [i] has curve parameter
    [curveParameter (number of photos) i], whatever uploads and removals led
    there. *)
Theorem reachable_photos_placed (st : State) (i : nat) (p : PhotoData) :
  reachable st ->
  nth_error (photos st) i = Some p ->
  ribbonT p = curveParameter (List.length (photos st)) i.
Proof.
  intros Hr Hp. rewrite (reachable_photos_generated st Hr) in Hp.
  destruct (generatePhotoPositions_nth _ _ _ Hp) as [E _].
  rewrite E, length_map. reflexivity.
Qed.

Lemma reachable_after_events (events : list Event) :
  forall st st', reachable st -> Forall validEvent events ->
                 run events st = Some st' -> reachable st'.
Proof.
  induction events as [| e rest IH]; intros st st' Hr Hv E; simpl in E.
  - injection E as <-. exact Hr.
  - inversion Hv as [| ? ? He Hrest]; subst.
    destruct (step e st) as [st1 |] eqn:S; [| discriminate].
    apply (IH st1 st'); [| exact Hrest | exact E].
    apply (reachable_step e st st1 Hr He S).
Qed.

Lemma reachable_photos_placed_witness :
  let st := handleRemovePhoto "b"
              (handlePhotoUpload (map samplePhoto ["a"; "b"; "c"]%string) initialState) in
  exists p, nth_error (photos st) 1 = Some p
            /\ ribbonT p = curveParameter (List.length (photos st)) 1.
Proof.
  intros st. eexists. split; [reflexivity |].
  apply (reachable_photos_placed st 1 _); [| reflexivity].
  apply (reachable_after_events
           [EUpload (map samplePhoto ["a"; "b"; "c"]%string); ERemove "b"%string]
           initialState);
    [apply reachable_initial | repeat constructor | reflexivity].
Defined.

End CollectionProps.

(** ** Selection, history and removal *)

Section SelectionProps.
Import Placement App AppRuns Photos.

Lemma last_In {A : Type} (l : list A) (d : A) : l <> [] -> In (last l d) l.
Proof.
  induction l as [| a r IH]; intros H; [contradiction |].
  destruct r as [| b r']; [left; reflexivity |].
  right. apply IH. discriminate.
Qed.

(** With two photos of distinct ids, some photo differs from any given
    id. *)
Lemma other_photo_exists (photos : list PhotoData) (lastViewed : string) :
  NoDup (map id photos) -> (1 < List.length photos)%nat ->
  filter (fun p => negb (String.eqb (id p) lastViewed)) photos <> [].
Proof.
  intros Hnd Hlen.
  destruct photos as [| p1 [| p2 rest]]; simpl in Hlen; try lia.
  simpl in Hnd. inversion Hnd as [| ? ? Hnotin _]; subst.
  simpl. destruct (String.eqb (id p1) lastViewed) eqn:E1; simpl; [| discriminate].
  destruct (String.eqb (id p2) lastViewed) eqn:E2; simpl; [| discriminate].
  apply String.eqb_eq in E1, E2. exfalso. apply Hnotin. left. congruence.
Qed.

(** The candidates of a selection: never empty, always photos of the
    collection, and never the photo viewed last when there is another. *)
Lemma selectCandidates_sound (photos : list PhotoData) (recent : list string) :
  NoDup (map id photos) -> photos <> [] ->
  selectCandidates photos recent <> []
  /\ forall p, In p (selectCandidates photos recent) ->
       In p photos
       /\ ((1 < List.length photos)%nat -> recent <> [] ->
           id p <> last recent EmptyString).
Proof.
  intros Hnd Hne. unfold selectCandidates.
  destruct (0 <? List.length (filter _ photos))%nat eqn:S.
  - apply length_pos_nonempty in S. split; [exact S |].
    intros p Hp. apply filter_In in Hp as [Hin Hb]. split; [exact Hin |].
    intros _ Hrec E.
    assert (Hl : In (id p) recent) by (rewrite E; apply last_In; exact Hrec).
    apply includes_In in Hl. rewrite Hl in Hb. discriminate.
  - destruct (1 <? List.length photos)%nat eqn:L; simpl.
    + destruct (0 <? List.length recent)%nat eqn:R; simpl.
      * apply Nat.ltb_lt in L.
        split; [apply other_photo_exists; assumption |].
        intros p Hp. apply filter_In in Hp as [Hin Hb]. split; [exact Hin |].
        intros _ _ E. rewrite E, String.eqb_refl in Hb. discriminate.
      * split; [exact Hne |]. intros p Hp. split; [exact Hp |].
        intros _ Hrec. exfalso.
        destruct recent; [contradiction | discriminate].
    + split; [exact Hne |]. intros p Hp. split; [exact Hp |].
      intros Hlen. apply Nat.ltb_ge in L. lia.
Qed.

Lemma point_selects (st : State) (u : Q) :
  appState st <> FOCUS -> photos st <> [] ->
  NoDup (map id (photos st)) -> validDraw u ->
  exists p,
    In p (photos st)
    /\ ((1 < List.length (photos st))%nat -> recentPhotos st <> [] ->
        id p <> last (recentPhotos st) EmptyString)
    /\ handleGesture POINT u st
       = Some {| appState := FOCUS;
                 handRotation := None;
                 gestureStatus := POINT;
                 photos := photos st;
                 featuredPhotoId := Some (id p);
                 recentPhotos := pushHistory (recentPhotos st) (id p) |}.
Proof.
  intros Hs Hph Hnd Hu.
  destruct (selectCandidates_sound _ (recentPhotos st) Hnd Hph) as [Hne Hall].
  destruct (index_randomIdx _ u Hu Hne) as [p [Hidx Hin]].
  destruct (Hall p Hin) as [Hp Hlast].
  exists p. split; [exact Hp |]. split; [exact Hlast |].
  unfold handleGesture.
  apply AppState_eqb_neq in Hs. rewrite Hs. simpl negb. cbv iota.
  apply length_pos_nonempty in Hph. rewrite Hph, Hidx. reflexivity.
Qed.

(** X12: when the photo ids are distinct, no gesture throws, whatever the
    state, the history and the draw; and a POINT outside FOCUS with at
    least one photo features a photo of the collection (the only one, when
    there is one) and clears the hand-rotation override. *)
Theorem gestures_never_throw (g : Gesture) (u : Q) (st : State) :
  NoDup (map id (photos st)) -> validDraw u ->
  (exists st', handleGesture g u st = Some st' /\ photos st' = photos st)
  /\ (appState st <> FOCUS -> photos st <> [] ->
      exists st' p,
        handleGesture POINT u st = Some st' /\ In p (photos st)
        /\ appState st' = FOCUS /\ featuredPhotoId st' = Some (id p)
        /\ handRotation st' = None).
Proof.
  intros Hnd Hu. split.
  - destruct g; try (eexists; split; reflexivity).
    destruct (AppState_eqb (appState st) FOCUS) eqn:F.
    + eexists. unfold handleGesture. rewrite F. split; reflexivity.
    + assert (D : photos st = [] \/ photos st <> [])
        by (destruct (photos st); [left; reflexivity | right; discriminate]).
      destruct D as [P | P].
      * eexists. unfold handleGesture. rewrite F, P. split; [reflexivity | simpl; auto].
      * destruct (point_selects st u) as [p [_ [_ E]]];
          [apply AppState_eqb_neq; exact F | exact P | exact Hnd | exact Hu |].
        eexists. split; [exact E | reflexivity].
  - intros Hs Hph. destruct (point_selects st u Hs Hph Hnd Hu) as [p [Hin [_ E]]].
    eexists. exists p. split; [exact E |]. simpl. auto.
Qed.

Lemma gestures_never_throw_witness :
  exists st' p,
    handleGesture POINT 0.99 (loaded ["a"; "b"; "c"]%string) = Some st'
    /\ In p (photos (loaded ["a"; "b"; "c"]%string))
    /\ appState st' = FOCUS /\ featuredPhotoId st' = Some (id p)
    /\ handRotation st' = None.
Proof.
  apply (gestures_never_throw POINT 0.99 (loaded ["a"; "b"; "c"]%string)).
  - simpl. repeat constructor; simpl; intuition discriminate.
  - split; [discriminate | reflexivity].
  - discriminate.
  - discriminate.
Defined.

(** X13: with two or more photos of distinct ids and a history that is not
    empty, a POINT outside FOCUS never features the photo featured last. *)
Theorem no_immediate_repeat (u : Q) (st st' : State) :
  NoDup (map id (photos st)) -> validDraw u ->
  appState st <> FOCUS ->
  (2 <= List.length (photos st))%nat ->
  recentPhotos st <> [] ->
  handleGesture POINT u st = Some st' ->
  featuredPhotoId st' <> Some (last (recentPhotos st) EmptyString)
  /\ featuredPhotoId st' <> None.
Proof.
  intros Hnd Hu Hs Hlen Hrec E.
  assert (Hph : photos st <> []) by (destruct (photos st); [simpl in Hlen; lia | discriminate]).
  destruct (point_selects st u Hs Hph Hnd Hu) as [p [_ [Hlast E']]].
  rewrite E' in E. injection E as <-. simpl. split; [| discriminate].
  intros F. injection F as F. exact (Hlast Hlen Hrec F).
Qed.

Lemma no_immediate_repeat_witness :
  let st := {| appState := FORMED; handRotation := None; gestureStatus := FIST;
               photos := photos (loaded ["a"; "b"]%string);
               featuredPhotoId := None;
               recentPhotos := ["a"; "b"]%string |} in
  exists st', handleGesture POINT 0.7 st = Some st'
              /\ featuredPhotoId st' <> Some "b"%string.
Proof.
  intros st. eexists. split; [reflexivity |].
  refine (proj1 (no_immediate_repeat 0.7 st _ _ _ _ _ _ eq_refl)).
  - simpl. repeat constructor; simpl; intuition discriminate.
  - split; [discriminate | reflexivity].
  - discriminate.
  - simpl. lia.
  - discriminate.
Defined.

Lemma pushHistory_length (recent : list string) (s : string) :
  (List.length recent <= MAX_HISTORY)%nat ->
  (List.length (pushHistory recent s) <= MAX_HISTORY)%nat.
Proof.
  intros H. unfold pushHistory.
  destruct (MAX_HISTORY <? List.length (recent ++ [s]))%nat eqn:E.
  - rewrite length_app in E. simpl in E.
    destruct recent as [| a r]; simpl in *; [lia |].
    rewrite length_app. simpl. lia.
  - apply Nat.ltb_ge in E. exact E.
Qed.

(** X14: in every reachable state the history holds at most five ids. *)
Theorem history_bounded (st : State) :
  reachable st -> (List.length (recentPhotos st) <= 5)%nat.
Proof.
  induction 1 as [| e st st' Hr IH Hv Hs]; [simpl; lia |].
  destruct e as [g u | xy | | files | removed | saved]; simpl in Hs.
  - destruct g; simpl in Hs; try (injection Hs as <-; exact IH).
    destruct (AppState_eqb (appState st) FOCUS); simpl in Hs.
    + injection Hs as <-. exact IH.
    + destruct (0 <? List.length (photos st))%nat.
      * destruct (index _ _); [| discriminate]. injection Hs as <-. simpl.
        apply (pushHistory_length _ _ IH).
      * injection Hs as <-. exact IH.
  - injection Hs as <-. unfold handleHandMove. destruct (negb _); exact IH.
  - injection Hs as <-. exact IH.
  - injection Hs as <-. unfold handlePhotoUpload.
    destruct (0 <? List.length files)%nat; exact IH.
  - injection Hs as <-. simpl.
    pose proof (filter_length_le (fun recId => negb (String.eqb recId removed))
                  (recentPhotos st)). lia.
  - injection Hs as <-. unfold loadPhotos.
    destruct (0 <? List.length saved)%nat; exact IH.
Qed.

Lemma history_bounded_witness :
  (List.length (recentPhotos (handleRemovePhoto "a" (loaded ["a"; "b"]%string))) <= 5)%nat.
Proof.
  apply history_bounded.
  apply (reachable_after_events
           [ELoad (map samplePhoto ["a"; "b"]%string); ERemove "a"%string] initialState);
    [apply reachable_initial | repeat constructor | reflexivity].
Defined.

(** The distinct ids are needed: with two photos of one id in the history
    the fallback leaves no candidate and reading [.id] throws. *)
Example point_throws_on_duplicate_ids :
  handleGesture POINT 0
    {| appState := FORMED; handRotation := None; gestureStatus := NONE;
       photos := generatePhotoPositions [samplePhoto "a"; samplePhoto "a"];
       featuredPhotoId := None; recentPhotos := ["a"%string] |}
  = None.
Proof. reflexivity. Qed.

Lemma map_filter_ids (removed : string) (l : list PhotoData) :
  map src_id (map toSource (filter (fun p => negb (String.eqb (id p) removed)) l))
  = filter (fun s => negb (String.eqb s removed)) (map id l).
Proof.
  induction l as [| a r IH]; simpl; [reflexivity |].
  destruct (negb (String.eqb (id a) removed)); simpl; rewrite IH; reflexivity.
Qed.

(** X15: removing a photo takes its id out of the collection and out of
    the history and keeps the other ids of both in their order; it changes
    neither the application state nor the featured-photo id, also when the
    removed photo is the featured one. *)
Theorem remove_prunes (removed : string) (st : State) :
  let st' := handleRemovePhoto removed st in
  map id (photos st')
  = filter (fun s => negb (String.eqb s removed)) (map id (photos st))
  /\ recentPhotos st'
     = filter (fun s => negb (String.eqb s removed)) (recentPhotos st)
  /\ ~ In removed (map id (photos st'))
  /\ ~ In removed (recentPhotos st')
  /\ appState st' = appState st
  /\ featuredPhotoId st' = featuredPhotoId st.
Proof.
  intros st'.
  assert (A : map id (photos st')
              = filter (fun s => negb (String.eqb s removed)) (map id (photos st))).
  { unfold st', handleRemovePhoto. cbn [photos].
    rewrite generated_ids. apply map_filter_ids. }
  assert (N : forall l, ~ In removed (filter (fun s => negb (String.eqb s removed)) l)).
  { intros l H. apply filter_In in H as [_ H].
    rewrite String.eqb_refl in H. discriminate. }
  split; [exact A |]. split; [reflexivity |].
  split; [rewrite A; apply N |]. split; [apply N |].
  split; reflexivity.
Qed.

(** X16: an upload of at least one file ends in FORMED with the new photos
    after the old ones, in order; it leaves the featured-photo id and the
    history as they were; an upload of no file changes nothing. *)
Theorem upload_appends (newSourceData : list SourcePhoto) (st : State) :
  let st' := handlePhotoUpload newSourceData st in
  (newSourceData = [] -> st' = st)
  /\ (newSourceData <> [] ->
      appState st' = FORMED
      /\ map id (photos st') = map id (photos st) ++ map src_id newSourceData
      /\ featuredPhotoId st' = featuredPhotoId st
      /\ recentPhotos st' = recentPhotos st).
Proof.
  intros st'. split.
  - intros ->. reflexivity.
  - intros Hne. apply length_pos_nonempty in Hne.
    unfold st', handlePhotoUpload. rewrite Hne. cbn [appState photos featuredPhotoId recentPhotos].
    repeat split.
    rewrite generated_ids, map_app. f_equal.
    rewrite map_map. apply map_ext. intros a. reflexivity.
Qed.

Lemma upload_appends_witness :
  map id (photos (handlePhotoUpload [samplePhoto "c"] (loaded ["a"; "b"]%string)))
  = map id (photos (loaded ["a"; "b"]%string)) ++ ["c"%string].
Proof.
  apply (upload_appends [samplePhoto "c"] (loaded ["a"; "b"]%string)).
  discriminate.
Defined.

(** *** Photo cards *)

Lemma truthy_featured (featured : option string) (photo : PhotoData) :
  isFeatured featured photo = true ->
  truthy featured = true /\ targetScale featured photo == 3.
Proof.
  unfold targetScale, isFeatured. destruct featured as [s |]; [| discriminate].
  intros H. apply andb_true_iff in H as [T E]. rewrite T.
  unfold isFeatured. rewrite E. split; reflexivity.
Qed.

(** X17: removing the featured photo hides every card: the state and the
    featured id stay, no remaining photo carries that id, and so every
    remaining photo has target scale 0. *)
Theorem removing_featured_hides_all (s : string) (st : State) (p : PhotoData) :
  featuredPhotoId st = Some s -> s <> EmptyString ->
  let st' := handleRemovePhoto s st in
  In p (photos st') ->
  appState st' = appState st
  /\ featuredPhotoId st' = Some s
  /\ isFeatured (featuredPhotoId st') p = false
  /\ targetScale (featuredPhotoId st') p = 0.
Proof.
  intros Hf Hs st' Hp.
  assert (Hid : id p <> s).
  { intros E. apply (in_map id) in Hp. rewrite E in Hp.
    unfold st', handleRemovePhoto in Hp. cbn [photos] in Hp.
    rewrite generated_ids, map_filter_ids in Hp.
    apply filter_In in Hp as [_ Hp]. rewrite String.eqb_refl in Hp. discriminate. }
  apply String.eqb_neq in Hid. apply String.eqb_neq in Hs.
  unfold st'. cbn [handleRemovePhoto appState featuredPhotoId]. rewrite Hf.
  unfold targetScale, isFeatured, truthy. rewrite Hs, Hid. simpl.
  repeat split; reflexivity.
Qed.

Lemma removing_featured_hides_all_witness :
  let st := {| appState := FOCUS; handRotation := None; gestureStatus := POINT;
               photos := photos (loaded ["a"; "b"]%string);
               featuredPhotoId := Some "a"%string;
               recentPhotos := ["a"%string] |} in
  exists p, nth_error (photos (handleRemovePhoto "a" st)) 0 = Some p
            /\ appState (handleRemovePhoto "a" st) = FOCUS
            /\ targetScale (featuredPhotoId (handleRemovePhoto "a" st)) p = 0%Q.
Proof.
  intros st. eexists. split; [reflexivity |].
  destruct (removing_featured_hides_all "a" st
              {| id := "b"; url := "b"; aspectRatio := 1; ribbonT := 0.5 |})
    as [A [_ [_ B]]].
  - reflexivity.
  - discriminate.
  - left. reflexivity.
  - split; [exact A | exact B].
Defined.

Local Open Scope Q_scope.

Lemma lerp_stays_above (s target t bound : Q) :
  0 <= t -> t <= 1 -> bound < s -> bound < target ->
  bound < Transition.lerp s target t.
Proof.
  intros H0 H1 Hs Ht. unfold Transition.lerp.
  assert (A : 0 <= (1 - t) * (s - bound)) by (apply Qmult_le_0_compat; lra).
  assert (B : 0 <= t * (target - bound)) by (apply Qmult_le_0_compat; lra).
  destruct (Qlt_le_dec t 1) as [L | G].
  - assert (0 < (1 - t) * (s - bound)) by (apply Qmult_lt_0_compat; lra). lra.
  - assert (E : t == 1) by lra.
    assert (0 < t * (target - bound)) by (apply Qmult_lt_0_compat; lra). lra.
Qed.

(** X18: the snap lock of the featured photo is stable: once its scale has
    passed 90% of the featured scale, frames with [0 <= delta * 4 <= 1]
    keep it there, so the card stays locked for as long as it is
    featured. *)
Theorem snap_lock_stable
    (featured : option string) (photo : PhotoData) (deltas : list Q) (scale : Q) :
  Forall (fun delta => 0 <= delta /\ delta * 4 <= 1) deltas ->
  snapLocked featured photo scale = true ->
  snapLocked featured photo (scaleFrames featured photo deltas scale) = true.
Proof.
  intros Hall. revert scale. unfold scaleFrames.
  induction Hall as [| d rest [Hd0 Hd1] _ IH]; intros scale Hl; [exact Hl |].
  simpl. apply IH.
  unfold snapLocked in *. apply andb_true_iff in Hl as [F L].
  rewrite F. simpl.
  destruct (truthy_featured featured photo F) as [_ T].
  destruct (Qlt_le_dec (targetScale featured photo * 0.9) scale) as [Hs | ];
    [| discriminate].
  destruct (Qlt_le_dec (targetScale featured photo * 0.9)
              (scaleFrame featured photo d scale)) as [_ | Hge]; [reflexivity |].
  exfalso. apply (Qle_not_lt _ _ Hge).
  unfold scaleFrame. apply lerp_stays_above; lra.
Qed.

Lemma snap_lock_stable_witness :
  let photo := {| id := "a"; url := "a"; aspectRatio := 1; ribbonT := 0.5 |} in
  snapLocked (Some "a"%string) photo
    (scaleFrames (Some "a"%string) photo [0.016; 0.25; 0.1] 2.8) = true.
Proof.
  intros photo. apply snap_lock_stable.
  - repeat constructor; discriminate.
  - reflexivity.
Defined.

End SelectionProps.

(** ** Persistence *)

Section PersistenceProps.
Import Placement Persistence.
Local Open Scope Z_scope.

Lemma insertByTimestamp_perm (r : SavedPhoto) (l : list SavedPhoto) :
  Permutation (insertByTimestamp r l) (r :: l).
Proof.
  induction l as [| s rest IH]; simpl; [reflexivity |].
  destruct (sp_timestamp r <=? sp_timestamp s); [reflexivity |].
  rewrite IH. apply perm_swap.
Qed.

Lemma insertByTimestamp_sorted (r : SavedPhoto) (l : list SavedPhoto) :
  Sorted byTimestamp l -> Sorted byTimestamp (insertByTimestamp r l).
Proof.
  induction 1 as [| s rest Hs IH Hhd]; simpl; [repeat constructor |].
  destruct (sp_timestamp r <=? sp_timestamp s) eqn:E.
  - apply Z.leb_le in E. repeat constructor; assumption.
  - apply Z.leb_gt in E. constructor; [exact IH |].
    destruct rest as [| t rest']; simpl.
    + constructor. unfold byTimestamp. lia.
    + destruct (sp_timestamp r <=? sp_timestamp t).
      * constructor. unfold byTimestamp. lia.
      * inversion Hhd; subst. constructor. assumption.
Qed.

Lemma insertByTimestamp_filter (t : Z) (r : SavedPhoto) (l : list SavedPhoto) :
  filter (fun a => sp_timestamp a =? t) (insertByTimestamp r l)
  = filter (fun a => sp_timestamp a =? t) (r :: l).
Proof.
  induction l as [| s rest IH]; [reflexivity |].
  cbn [insertByTimestamp].
  destruct (sp_timestamp r <=? sp_timestamp s) eqn:E; [reflexivity |].
  apply Z.leb_gt in E.
  cbn [filter] in *. rewrite IH.
  destruct (sp_timestamp s =? t) eqn:Es; destruct (sp_timestamp r =? t) eqn:Er;
    try reflexivity.
  apply Z.eqb_eq in Es, Er. lia.
Qed.

(** X19: [getAllPhotosFromDB] answers with the stored photos, each once,
    in the order of their timestamps, photos stored at the same
    millisecond keeping the order of the store. *)
Theorem getAll_sorted_stable (results : list SavedPhoto) (t : Z) :
  Permutation (sortByTimestamp results) results
  /\ Sorted byTimestamp (sortByTimestamp results)
  /\ filter (fun a => sp_timestamp a =? t) (sortByTimestamp results)
     = filter (fun a => sp_timestamp a =? t) results
  /\ Permutation (map src_id (getAllPhotosFromDB results)) (map sp_id results)
  /\ List.length (getAllPhotosFromDB results) = List.length results.
Proof.
  assert (P : Permutation (sortByTimestamp results) results).
  { induction results as [| r rest IH]; simpl; [reflexivity |].
    rewrite insertByTimestamp_perm. constructor. exact IH. }
  split; [exact P |]. split; [| split; [| split]].
  - induction results as [| r rest IH]; simpl; [constructor |].
    apply insertByTimestamp_sorted. apply IH.
    clear IH P. induction rest as [| a r' IH']; simpl; [reflexivity |].
    rewrite insertByTimestamp_perm. constructor. exact IH'.
  - clear P. induction results as [| r rest IH]; [reflexivity |].
    cbn [sortByTimestamp fold_right]. rewrite insertByTimestamp_filter.
    cbn [filter]. fold (sortByTimestamp rest). rewrite IH. reflexivity.
  - unfold getAllPhotosFromDB. rewrite map_map. cbn [src_id].
    apply Permutation_map. exact P.
  - unfold getAllPhotosFromDB. rewrite length_map.
    apply Permutation_length. exact P.
Qed.

End PersistenceProps.

(** ** Chaos positions *)

Section SphereProps.
Import Sphere.
Local Open Scope R_scope.

Lemma cbrt_pos (w : R) : 0 < w -> cbrt w = Rpower w (/ 3) /\ 0 < cbrt w.
Proof.
  intros H. unfold cbrt. destruct (Rlt_dec 0 w); [| contradiction].
  split; [reflexivity | apply exp_pos].
Qed.

Lemma cbrt_zero : cbrt 0 = 0.
Proof.
  unfold cbrt. destruct (Rlt_dec 0 0); [lra |].
  destruct (Rlt_dec 0 0); [lra | reflexivity].
Qed.

Lemma cbrt_cube (w : R) : 0 <= w -> cbrt w ^ 3 = w.
Proof.
  intros [H | <-]; [| rewrite cbrt_zero; ring].
  destruct (cbrt_pos w H) as [E P]. rewrite E in *.
  rewrite <- (Rpower_pow 3 _ P), Rpower_mult.
  replace (/ 3 * INR 3) with 1 by (simpl; field).
  apply Rpower_1. exact H.
Qed.

Lemma cbrt_unit (w : R) : 0 <= w -> w < 1 -> 0 <= cbrt w /\ cbrt w < 1.
Proof.
  intros [H | <-] H1; [| rewrite cbrt_zero; lra].
  destruct (cbrt_pos w H) as [E P]. split; [lra |].
  rewrite E. unfold Rpower. rewrite <- exp_0. apply exp_increasing.
  assert (L : ln w < 0) by (rewrite <- ln_1; apply ln_increasing; lra).
  lra.
Qed.

Lemma randomSpherePoint_norm (radius u v w : R) :
  normSquared (randomSpherePoint radius u v w) = (cbrt w * radius) * (cbrt w * radius).
Proof.
  unfold randomSpherePoint, normSquared.
  pose proof (sin2_cos2 (2 * PI * u)) as T.
  pose proof (sin2_cos2 (acos (2 * v - 1))) as F.
  unfold Rsqr in T, F.
  set (r := cbrt w * radius) in *.
  set (st := sin (2 * PI * u)) in *. set (ct := cos (2 * PI * u)) in *.
  set (sp := sin (acos (2 * v - 1))) in *. set (cp := cos (acos (2 * v - 1))) in *.
  replace (r * sp * ct * (r * sp * ct) + r * sp * st * (r * sp * st) + r * cp * (r * cp))
    with (r * r * (sp * sp * (st * st + ct * ct) + cp * cp)) by ring.
  rewrite T. replace (sp * sp * 1 + cp * cp) with (sp * sp + cp * cp) by ring.
  rewrite F. ring.
Qed.

(** X20: a chaos position lies in the solid ball of the given radius, at
    distance [cbrt w * radius] from the centre whatever the two angle
    draws; the cube of that distance is [w * radius ^ 3], so a uniform [w]
    fills the ball uniformly by volume. *)
Theorem chaos_point_in_ball (radius u v w : R) :
  0 <= radius -> 0 <= w -> w < 1 ->
  let d := cbrt w * radius in
  normSquared (randomSpherePoint radius u v w) = d * d
  /\ 0 <= d /\ d <= radius
  /\ d ^ 3 = w * radius ^ 3.
Proof.
  intros Hr H0 H1 d.
  destruct (cbrt_unit w H0 H1) as [C0 C1].
  split; [apply randomSpherePoint_norm |].
  split; [unfold d; apply Rmult_le_pos; assumption |].
  split.
  - unfold d. replace radius with (1 * radius) at 2 by ring.
    apply Rmult_le_compat_r; lra.
  - unfold d. rewrite Rpow_mult_distr, (cbrt_cube w H0). reflexivity.
Qed.

Lemma chaos_point_in_ball_witness :
  normSquared (randomSpherePoint 15 (1 / 4) (1 / 2) 0) = (cbrt 0 * 15) * (cbrt 0 * 15).
Proof.
  apply (chaos_point_in_ball 15 (1 / 4) (1 / 2) 0); lra.
Defined.

End SphereProps.

(** ** Gesture controller *)

Section GestureTraceProps.
Import Gesture GestureTrace.

Lemma dist_translate (v p1 p2 : Landmark) :
  dist {| x := (x p1 + x v)%Q; y := (y p1 + y v)%Q; z := (z p1 + z v)%Q |}
       {| x := (x p2 + x v)%Q; y := (y p2 + y v)%Q; z := (z p2 + z v)%Q |}
  = dist p1 p2.
Proof.
  unfold dist. f_equal. apply Qeq_eqR. cbn [x y z]. simpl. ring.
Qed.

(** X21: the classification only sees the hand's shape: moving every
    landmark by one and the same vector leaves the gesture unchanged. *)
Theorem detectGesture_translation_invariant (v : Landmark) (landmarks : Hand) :
  detectGesture (translate v landmarks) = detectGesture landmarks.
Proof.
  unfold detectGesture, tipsToWristAvg, translate.
  rewrite !dist_translate. reflexivity.
Qed.

Section Thresholds.
Local Open Scope R_scope.

(** X22: a hand whose four fingertips are all closer to the wrist than
    0.25 is a FIST, and one whose four fingertips are all farther than
    0.45 is OPEN. *)
Theorem all_tips_near_or_far (landmarks : Hand) :
  let wrist := landmarks 0%nat in
  let dIndex := dist (landmarks 8%nat) wrist in
  let dMiddle := dist (landmarks 12%nat) wrist in
  let dRing := dist (landmarks 16%nat) wrist in
  let dPinky := dist (landmarks 20%nat) wrist in
  (dIndex < 0.25 -> dMiddle < 0.25 -> dRing < 0.25 -> dPinky < 0.25 ->
   detectGesture landmarks = FIST)
  /\ (0.45 < dIndex -> 0.45 < dMiddle -> 0.45 < dRing -> 0.45 < dPinky ->
      detectGesture landmarks = OPEN).
Proof.
  intros wrist dIndex dMiddle dRing dPinky.
  destruct (detectGesture_cases landmarks) as [F [_ [O _]]].
  fold wrist in F, O. fold dIndex in F, O. fold dMiddle in F, O.
  fold dRing in F, O. fold dPinky in F, O.
  split.
  - intros. apply F. lra.
  - intros. apply O; [lra | | lra].
    intros [_ [Hm _]]. lra.
Qed.

Ltac tips_of a b c d :=
  let HI := fresh "HI" in
  let HM := fresh "HM" in
  let HR := fresh "HR" in
  let HP := fresh "HP" in
  destruct (handWithTips_dists a b c d) as [HI [HM [HR HP]]];
  try discriminate;
  try rewrite HI; try rewrite HM; try rewrite HR; try rewrite HP;
  unfold Q2R; cbn [Qnum Qden]; try lra.

Lemma all_tips_near_or_far_witness :
  detectGesture (handWithTips 0.1 0.2 0.15 0.1) = FIST
  /\ detectGesture (handWithTips 0.5 0.6 0.55 0.5) = OPEN.
Proof.
  split.
  - apply (all_tips_near_or_far (handWithTips 0.1 0.2 0.15 0.1));
      tips_of 0.1%Q 0.2%Q 0.15%Q 0.1%Q.
  - apply (all_tips_near_or_far (handWithTips 0.5 0.6 0.55 0.5));
      tips_of 0.5%Q 0.6%Q 0.55%Q 0.5%Q.
Defined.

End Thresholds.

Local Open Scope Z_scope.

Lemma timedEmissions_cons (refs : Refs) (frame : Frame) (rest : list Frame) :
  (fst (predictWebcam refs frame) = refs
   /\ timedEmissions refs (frame :: rest) = timedEmissions refs rest
   /\ emissions refs (frame :: rest) = emissions refs rest)
  \/ (exists g now,
        g <> lastGesture refs /\ 150 < now - gestureDebounce refs
        /\ fst (predictWebcam refs frame) = {| lastGesture := g; gestureDebounce := now |}
        /\ timedEmissions refs (frame :: rest)
           = (g, now) :: timedEmissions {| lastGesture := g; gestureDebounce := now |} rest
        /\ emissions refs (frame :: rest)
           = g :: emissions {| lastGesture := g; gestureDebounce := now |} rest).
Proof.
  destruct frame as [| now [| landmarks more]]; simpl; auto.
  destruct (debounce_cases refs (detectGesture landmarks) now)
    as [[Hd [Ht E]] | [_ E]]; rewrite E; simpl.
  - right. exists (detectGesture landmarks), now. auto.
  - left. auto.
Qed.

Lemma timedEmissions_chain (frames : list Frame) :
  forall refs,
    chained (fun a b => fst a <> fst b /\ 150 < snd b - snd a)
            (timedEmissions refs frames)
    /\ match timedEmissions refs frames with
       | (g, now) :: _ => g <> lastGesture refs /\ 150 < now - gestureDebounce refs
       | [] => True
       end
    /\ map fst (timedEmissions refs frames) = emissions refs frames.
Proof.
  induction frames as [| frame rest IH]; intros refs; [simpl; auto |].
  destruct (timedEmissions_cons refs frame rest)
    as [[_ [-> ->]] | [g [now [Hd [Ht [_ [-> ->]]]]]]]; [apply IH |].
  destruct (IH {| lastGesture := g; gestureDebounce := now |}) as [C [H M]].
  split; [| split; [split; assumption | simpl; rewrite M; reflexivity]].
  destruct (timedEmissions {| lastGesture := g; gestureDebounce := now |} rest)
    as [| [g2 t2] tail]; [exact I |].
  simpl in H. split; [| exact C].
  simpl. destruct H as [H1 H2]. split; [congruence | exact H2].
Qed.

(** X23: over any run of frames, two consecutive emissions are never the
    same gesture and are always more than 150 ms apart; the first one is
    not NONE and comes later than 150 on the clock. *)
Theorem emissions_alternate_and_spaced (frames : list Frame) :
  chained (fun a b => fst a <> fst b /\ 150 < snd b - snd a)
          (timedEmissions initialRefs frames)
  /\ match timedEmissions initialRefs frames with
     | (g, now) :: _ => g <> NONE /\ 150 < now
     | [] => True
     end
  /\ map fst (timedEmissions initialRefs frames) = emissions initialRefs frames.
Proof.
  destruct (timedEmissions_chain frames initialRefs) as [C [H M]].
  split; [exact C |]. split; [| exact M].
  destruct (timedEmissions initialRefs frames) as [| [g now] tail]; [exact I |].
  simpl in H. destruct H as [H1 H2]. split; [exact H1 | lia].
Qed.

Lemma runFrames_last (frames : list Frame) :
  forall refs,
    lastGesture (runFrames refs frames)
    = last (emissions refs frames) (lastGesture refs)
    /\ gestureDebounce (runFrames refs frames)
       = last (map snd (timedEmissions refs frames)) (gestureDebounce refs).
Proof.
  induction frames as [| frame rest IH]; intros refs; [split; reflexivity |].
  assert (R : runFrames refs (frame :: rest)
              = runFrames (fst (predictWebcam refs frame)) rest) by reflexivity.
  rewrite R.
  destruct (timedEmissions_cons refs frame rest)
    as [[-> [-> ->]] | [g [now [_ [_ [-> [-> ->]]]]]]]; [apply IH |].
  destruct (IH {| lastGesture := g; gestureDebounce := now |}) as [A B].
  rewrite A, B. cbn [lastGesture gestureDebounce map snd].
  rewrite !last_cons_default. split; reflexivity.
Qed.

(** X24: after any run of frames the refs hold the last emission: the
    gesture shown as the label is the last one handed to the consumer
    (NONE before the first), and the debounce clock is its time (0 before
    the first). *)
Theorem refs_hold_last_emission (frames : list Frame) :
  lastGesture (runFrames initialRefs frames)
  = last (emissions initialRefs frames) NONE
  /\ gestureDebounce (runFrames initialRefs frames)
     = last (map snd (timedEmissions initialRefs frames)) 0.
Proof. apply (runFrames_last frames initialRefs). Qed.

End GestureTraceProps.

(** ** Hand moves outside FOCUS *)

Section HandMoveProps.
Import App.

(** X25: outside FOCUS the override always holds the latest hand sample:
    after any run of samples that is not empty it is the last one, and
    nothing else in the state has changed. *)
Theorem override_is_latest_sample
    (samples : list (Q * Q)) (xy : Q * Q) (st : State) :
  appState st <> FOCUS ->
  handMoves (samples ++ [xy]) st
  = {| appState := appState st;
       handRotation := Some xy;
       gestureStatus := gestureStatus st;
       photos := photos st;
       featuredPhotoId := featuredPhotoId st;
       recentPhotos := recentPhotos st |}.
Proof.
  intros Hs. unfold handMoves. rewrite fold_left_app. simpl.
  assert (H : forall l s, appState s <> FOCUS ->
            appState (fold_left (fun s xy => handleHandMove xy s) l s) = appState s
            /\ gestureStatus (fold_left (fun s xy => handleHandMove xy s) l s) = gestureStatus s
            /\ photos (fold_left (fun s xy => handleHandMove xy s) l s) = photos s
            /\ featuredPhotoId (fold_left (fun s xy => handleHandMove xy s) l s)
               = featuredPhotoId s
            /\ recentPhotos (fold_left (fun s xy => handleHandMove xy s) l s)
               = recentPhotos s).
  { induction l as [| a r IH]; intros s Hne; simpl; [repeat split |].
    assert (E : handleHandMove a s
                = {| appState := appState s; handRotation := Some a;
                     gestureStatus := gestureStatus s; photos := photos s;
                     featuredPhotoId := featuredPhotoId s;
                     recentPhotos := recentPhotos s |}).
    { unfold handleHandMove. apply AppState_eqb_neq in Hne. rewrite Hne. reflexivity. }
    rewrite E.
    exact (IH {| appState := appState s; handRotation := Some a;
                 gestureStatus := gestureStatus s; photos := photos s;
                 featuredPhotoId := featuredPhotoId s;
                 recentPhotos := recentPhotos s |} Hne). }
  destruct (H samples st Hs) as [A [B [C [D F]]]].
  set (mid := fold_left (fun s xy => handleHandMove xy s) samples st) in *.
  unfold handleHandMove. rewrite A.
  apply AppState_eqb_neq in Hs. rewrite Hs. simpl. rewrite B, C, D, F. reflexivity.
Qed.

Lemma override_is_latest_sample_witness :
  handRotation (handMoves ([(0.1, 0.2); (0.4, 0.4)] ++ [(0.9, 0.3)])%Q initialState)
  = Some (0.9, 0.3)%Q.
Proof.
  rewrite (override_is_latest_sample [(0.1, 0.2); (0.4, 0.4)]%Q (0.9, 0.3)%Q initialState).
  - reflexivity.
  - discriminate.
Defined.

End HandMoveProps.
